(** * dsa::spinlock (spinlock.hpp): a shallow embedding and its properties

    The development follows the header top to bottom:

    - [Chrono]: the part of <chrono> the class uses (periods as ratios,
      [common_type], [duration_cast], a steady clock);
    - [Atomic]: [std::atomic_flag] with the memory orders of its operations;
    - [Spinlock]: the class template, its instantiation, and the three member
      functions [lock], [try_lock] and [unlock];
    - [Threads]: N threads interleaving their calls on one spinlock.

    The tick counts of durations are 64-bit signed integers. At run time an
    overflowing product is given its two's-complement result ([wrap64]), which
    is what the machine computes where C++ leaves the behaviour undefined; in a
    constant expression an overflow makes the initializer ill-formed. The
    properties that depend on an elapsed time are stated for the runs in which
    the conversion does not overflow. *)

From Stdlib Require Import ZArith List Bool Lia String.
From stdpp Require Import base option list gmap sets.

Local Open Scope Z_scope.

(* ===================================================================== *)
(** ** <chrono> *)
(* ===================================================================== *)

Module Chrono.

(** [std::ratio<num, den>]: the length of one tick, in seconds. *)
Record ratio : Type := mk_ratio { num : Z; den : Z }.

(** A period the library accepts: positive numerator and denominator. *)
Definition ratio_ok (r : ratio) : Prop := 0 < num r /\ 0 < den r.

Definition nano : ratio := mk_ratio 1 1000000000.
Definition milli : ratio := mk_ratio 1 1000.

(** The period of [std::common_type<duration<R1,P1>, duration<R2,P2>>]:
    the greatest common divisor of the two periods. *)
Definition common_period (p q : ratio) : ratio :=
  mk_ratio (Z.gcd (num p) (num q)) (Z.lcm (den p) (den q)).

Definition ratio_okb (r : ratio) : bool := (0 <? num r) && (0 <? den r).

(** The tick counts ([rep]) of [nanoseconds], of [steady_clock::duration] and
    of [duration_type] are 64-bit signed integers. *)
Definition int64_min : Z := - 9223372036854775808.
Definition int64_max : Z := 9223372036854775807.

Definition in_int64 (z : Z) : bool := (int64_min <=? z) && (z <=? int64_max).

(** The two's-complement value of [z] in 64 bits. *)
Definition wrap64 (z : Z) : Z :=
  (z + 9223372036854775808) mod 18446744073709551616 - 9223372036854775808.

(** The conversion factor [from / to] in lowest terms (what
    [std::ratio_divide] gives): its numerator and its denominator. *)
Definition cf_num (from to : ratio) : Z :=
  (num from * den to) / Z.gcd (num from * den to) (den from * num to).

Definition cf_den (from to : ratio) : Z :=
  (den from * num to) / Z.gcd (num from * den to) (den from * num to).

(** [std::chrono::duration_cast] of a tick count [c] from period [from] to
    period [to], at run time: the count is multiplied by the factor's
    numerator in 64 bits and the product divided by its denominator,
    truncating towards zero. *)
Definition duration_cast (from to : ratio) (c : Z) : Z :=
  Z.quot (wrap64 (c * cf_num from to)) (cf_den from to).

(** The same conversion with unbounded integers: the value [duration_cast]
    has when the product does not overflow. *)
Definition exact_cast (from to : ratio) (c : Z) : Z :=
  Z.quot (c * cf_num from to) (cf_den from to).

End Chrono.

(* ===================================================================== *)
(** ** <atomic> *)
(* ===================================================================== *)

Module Atomic.

Inductive memory_order : Type :=
| memory_order_relaxed
| memory_order_consume
| memory_order_acquire
| memory_order_release
| memory_order_acq_rel
| memory_order_seq_cst.

(** Does an operation with this order acquire on its load part? *)
Definition is_acquire (mo : memory_order) : bool :=
  match mo with
  | memory_order_acquire | memory_order_acq_rel | memory_order_seq_cst => true
  | _ => false
  end.

(** Does an operation with this order release on its store part? *)
Definition is_release (mo : memory_order) : bool :=
  match mo with
  | memory_order_release | memory_order_acq_rel | memory_order_seq_cst => true
  | _ => false
  end.

(** What a thread knows of memory: the identifiers of the writes that
    happen before its current point. *)
Abbreviation view := (gset nat).

(** [std::atomic_flag]. All operations on one flag are totally ordered (its
    modification order), and a read-modify-write reads the last value in
    that order, so the cell is its current value, together with the view
    the last store in its release sequence published. *)
Record atomic_flag : Type := mk_flag { flag_set : bool; flag_view : view }.

(** [ATOMIC_FLAG_INIT]: the clear state. *)
Definition ATOMIC_FLAG_INIT : atomic_flag := mk_flag false ∅.

(** [f.test_and_set(mo)] by a thread whose view is [tv]: returns the old
    value, the thread's new view and the new cell. The flag is set whatever
    it held. An acquiring load joins the published view into the thread's;
    the store continues the release sequence it read from, adding the
    thread's view when it is a releasing store. *)
Definition test_and_set (mo : memory_order) (tv : view) (f : atomic_flag)
  : bool * view * atomic_flag :=
  (flag_set f,
   if is_acquire mo then tv ∪ flag_view f else tv,
   mk_flag true (if is_release mo then flag_view f ∪ tv else flag_view f)).

(** [f.clear(mo)]: a plain store of false, which publishes the thread's
    view exactly when it is a releasing store. *)
Definition clear (mo : memory_order) (tv : view) (f : atomic_flag) : atomic_flag :=
  mk_flag false (if is_release mo then tv else ∅).

End Atomic.

Import Chrono Atomic.

(* ===================================================================== *)
(** ** The class template [dsa::spinlock<WaitDurationType, wait_count>] *)
(* ===================================================================== *)

Module Spinlock.

(** Outcome of instantiating a template: the instance, or the program is
    ill-formed and the compiler reports the message. Nothing of this type is
    left at run time. *)
Inductive compile_result (A : Type) : Type :=
| Compiled (a : A)
| IllFormed (msg : string).
Arguments Compiled {A} a.
Arguments IllFormed {A} msg.

Definition static_assert (c : bool) (msg : string) : compile_result unit :=
  if c then Compiled tt else IllFormed msg.

(** [duration_cast] in a constant expression: an overflowing product is not
    a constant expression, and the initializer that needs it is ill-formed. *)
Definition constexpr_duration_cast (from to : ratio) (c : Z) : compile_result Z :=
  if in_int64 (c * cf_num from to)
  then Compiled (Z.quot (c * cf_num from to) (cf_den from to))
  else IllFormed "overflow in constant expression".

(** The compile-time members of an instance: [duration_type]'s period and
    [default_wait_time], counted in [duration_type] ticks. The initializer of
    a static data member of a class template is instantiated only where the
    member is used, so the instance exists even when its default is
    ill-formed; then a call of [lock] without an argument does not compile. *)
Record spinlock_class : Type := mk_class {
  duration_type : ratio;
  default_wait_time : compile_result Z
}.

(** Instantiation with [WaitDurationType]'s period and [wait_count]. The
    period has to be one <chrono> accepts for a duration (positive); line 110
    checks the count; [duration_type] (lines 112-115) needs the common
    period's denominator to be representable; lines 118-122 give the
    default. *)
Definition instantiate (wait_period : ratio) (wait_count : Z)
  : compile_result spinlock_class :=
  match static_assert (ratio_okb wait_period) "period must be positive" with
  | IllFormed msg => IllFormed msg
  | Compiled _ =>
      match static_assert (0 <? wait_count) "default wait count must be nonzero" with
      | IllFormed msg => IllFormed msg
      | Compiled _ =>
          let dt := common_period wait_period nano in
          match static_assert (den dt <=? int64_max)
                              "overflow in constant expression" with
          | IllFormed msg => IllFormed msg
          | Compiled _ =>
              Compiled (mk_class dt (constexpr_duration_cast wait_period dt wait_count))
          end
      end
  end.

(** The object: its only data member is [lock_flag]. *)
Record spinlock : Type := mk_spinlock { lock_flag : atomic_flag }.

(** The defaulted constructor (lines 125 and 128). *)
Definition construct : spinlock := mk_spinlock ATOMIC_FLAG_INIT.

(** What a member function observes while it runs. *)
Inductive event : Type :=
| EvTestAndSet (mo : memory_order) (old : bool)
| EvClear (mo : memory_order)
| EvNow (t : Z)
| EvYield.

(** What a running member function can touch: the calling thread's view, the
    spinlock, and the steady clock (in ticks of its own period). *)
Record context : Type := mk_context {
  cx_view : view;
  cx_lock : spinlock;
  cx_clock : Z
}.

(** State passing with a log of the events, oldest first. *)
Definition M (A : Type) : Type := context -> A * context * list event.

Definition ret {A} (a : A) : M A := fun cx => (a, cx, []).

Definition bind {A B} (m : M A) (k : A -> M B) : M B :=
  fun cx =>
    let '(a, cx1, tr1) := m cx in
    let '(b, cx2, tr2) := k a cx1 in
    (b, cx2, tr1 ++ tr2).

Notation "x <- m ;; k" := (bind m (fun x => k))
  (at level 100, m at next level, right associativity).

Definition flag_test_and_set (mo : memory_order) : M bool :=
  fun cx =>
    let '(old, tv, f) := test_and_set mo (cx_view cx) (lock_flag (cx_lock cx)) in
    (old, mk_context tv (mk_spinlock f) (cx_clock cx), [EvTestAndSet mo old]).

Definition flag_clear (mo : memory_order) : M unit :=
  fun cx =>
    (tt,
     mk_context (cx_view cx)
                (mk_spinlock (clear mo (cx_view cx) (lock_flag (cx_lock cx))))
                (cx_clock cx),
     [EvClear mo]).

(** [std::chrono::steady_clock::now ()]. *)
Definition steady_clock_now : M Z :=
  fun cx => (cx_clock cx, cx, [EvNow (cx_clock cx)]).

(** [std::this_thread::yield ()]. *)
Definition this_thread_yield : M unit :=
  fun cx => (tt, cx, [EvYield]).

(** [try_lock] (lines 159-162). *)
Definition try_lock : M bool :=
  b <- flag_test_and_set memory_order_acquire ;;
  ret (negb b).

(** [unlock] (lines 164-167). *)
Definition unlock : M unit :=
  flag_clear memory_order_release.

(** Is the lock held? *)
Definition held (cx : context) : bool := flag_set (lock_flag (cx_lock cx)).

(** *** [lock] (lines 137-157)

    [lock] loops, so it is given as the machine of its atomic actions: a
    control point and one action per step. The local [start] lives in the
    control points of the inner loop. *)
Inductive lock_pc : Type :=
| LockStart                 (* line 140: top of the outer loop *)
| LockTest (start : Z)      (* line 142: the inner loop's condition *)
| LockElapsed (start : Z)   (* lines 143-150: the inner loop's body *)
| LockYield                 (* lines 154-155: the label yield *)
| LockReturn.               (* line 153 *)

(** One action of [lock (wait_time)]. [clock_period] is the period of
    [std::chrono::steady_clock::duration], which the platform fixes. The
    difference [now - start] and its conversion are 64-bit computations. *)
Definition lock_step (clock_period : ratio) (cls : spinlock_class)
    (wait_time : Z) (pc : lock_pc) : M lock_pc :=
  match pc with
  | LockStart =>
      start <- steady_clock_now ;;
      ret (LockTest start)
  | LockTest start =>
      b <- flag_test_and_set memory_order_acquire ;;
      ret (if b then LockElapsed start else LockReturn)
  | LockElapsed start =>
      now <- steady_clock_now ;;
      let elapsed :=
        duration_cast clock_period (duration_type cls) (wrap64 (now - start)) in
      ret (if elapsed >=? wait_time then LockYield else LockTest start)
  | LockYield =>
      _ <- this_thread_yield ;;
      ret LockStart
  | LockReturn => ret LockReturn
  end.

(** What the rest of the machine does between two actions of the caller:
    other threads may leave any value in the flag, and the steady clock
    moves forward by some number of ticks, never backwards. *)
Record env_move : Type := mk_env_move {
  em_flag : option atomic_flag;
  em_ticks : N
}.

Definition env_apply (m : env_move) (cx : context) : context :=
  mk_context (cx_view cx)
             (match em_flag m with
              | Some f => mk_spinlock f
              | None => cx_lock cx
              end)
             (cx_clock cx + Z.of_N (em_ticks m)).

(** Run [lock (wait_time)] from control point [pc], one environment move
    before each action, until it returns or the moves run out. *)
Fixpoint lock_run (clock_period : ratio) (cls : spinlock_class)
    (wait_time : Z) (moves : list env_move) (pc : lock_pc) (cx : context)
  : lock_pc * context * list event :=
  match pc, moves with
  | LockReturn, _ => (pc, cx, [])
  | _, [] => (pc, cx, [])
  | _, m :: ms =>
      let '(pc1, cx1, tr1) := lock_step clock_period cls wait_time pc (env_apply m cx) in
      let '(pc2, cx2, tr2) := lock_run clock_period cls wait_time ms pc1 cx1 in
      (pc2, cx2, tr1 ++ tr2)
  end.

Definition lock_pc_eq_dec (p q : lock_pc) : {p = q} + {p <> q}.
Proof. decide equality; apply Z.eq_dec. Defined.

(** What line 145 computes from the two clock readings. *)
Definition elapsed_since (clock_period : ratio) (cls : spinlock_class)
    (start now : Z) : Z :=
  duration_cast clock_period (duration_type cls) (wrap64 (now - start)).

(** The wait time of a call: the argument, or [default_wait_time]; there is
    none when the call leaves the argument out and the default is
    ill-formed. *)
Definition wait_arg (cls : spinlock_class) (w : option Z) : option Z :=
  match w with
  | Some t => Some t
  | None =>
      match default_wait_time cls with
      | Compiled t => Some t
      | IllFormed _ => None
      end
  end.

End Spinlock.

Import Spinlock.

(* ===================================================================== *)
(** ** Threads sharing one spinlock *)
(* ===================================================================== *)

Module Threads.

(** Where a thread is with respect to the lock. A thread follows the
    header's usage rules (lines 46-54): it calls [lock] or [try_lock] only
    when it does not own the spinlock, and [unlock] only when it does. *)
Inductive thread_pc : Type :=
| Outside                                  (* not the owner, in no call *)
| Locking (wait_time : Z) (pc : lock_pc)   (* inside a call to lock *)
| Inside.                                  (* owner: lock or try_lock succeeded,
                                              unlock not yet called *)

Record thread : Type := mk_thread { th_pc : thread_pc; th_view : view }.

Record system : Type := mk_system {
  sys_lock : spinlock;
  sys_clock : Z;
  sys_threads : list thread
}.

Inductive action : Type :=
| CallLock (w : option Z)   (* enter lock, with or without an argument *)
| LockStep                  (* one action of the running lock *)
| TryLock                   (* a whole call of try_lock *)
| Unlock                    (* a whole call of unlock *)
| Write (id : nat).         (* an ordinary write to shared data *)

Inductive label : Type :=
| Tick (d : N)                   (* the steady clock advances *)
| Act (i : nat) (a : action).    (* thread i acts *)

(** Thread [i] (currently [t]) runs [m] on the shared lock and clock and
    continues at the control point [k] chooses. *)
Definition run_in {A} (s : system) (i : nat) (t : thread) (m : M A)
    (k : A -> thread_pc) : system :=
  let '(a, cx, _) := m (mk_context (th_view t) (sys_lock s) (sys_clock s)) in
  mk_system (cx_lock cx) (cx_clock cx)
            (<[i := mk_thread (k a) (cx_view cx)]> (sys_threads s)).

(** One step of the system; [None] when the action is not one the thread
    can take at its control point. *)
Definition exec (clock_period : ratio) (cls : spinlock_class)
    (l : label) (s : system) : option system :=
  match l with
  | Tick d => Some (mk_system (sys_lock s) (sys_clock s + Z.of_N d) (sys_threads s))
  | Act i a =>
      match sys_threads s !! i with
      | None => None
      | Some t =>
          match a, th_pc t with
          | CallLock w, Outside =>
              match wait_arg cls w with
              | Some wait_time =>
                  Some (run_in s i t (ret tt) (fun _ => Locking wait_time LockStart))
              | None => None
              end
          | LockStep, Locking w LockReturn =>
              Some (run_in s i t (ret tt) (fun _ => Inside))
          | LockStep, Locking w pc =>
              Some (run_in s i t (lock_step clock_period cls w pc) (Locking w))
          | TryLock, Outside =>
              Some (run_in s i t try_lock (fun b => if b then Inside else Outside))
          | Unlock, Inside =>
              Some (run_in s i t unlock (fun _ => Outside))
          | Write id, Outside =>
              Some (mk_system (sys_lock s) (sys_clock s)
                      (<[i := mk_thread Outside (th_view t ∪ {[id]})]> (sys_threads s)))
          | Write id, Inside =>
              Some (mk_system (sys_lock s) (sys_clock s)
                      (<[i := mk_thread Inside (th_view t ∪ {[id]})]> (sys_threads s)))
          | _, _ => None
          end
      end
  end.

Fixpoint exec_all (clock_period : ratio) (cls : spinlock_class)
    (ls : list label) (s : system) : option system :=
  match ls with
  | [] => Some s
  | l :: ls' =>
      match exec clock_period cls l s with
      | Some s' => exec_all clock_period cls ls' s'
      | None => None
      end
  end.

(** [n] threads around a freshly constructed spinlock. *)
Definition init (n : nat) (t0 : Z) : system :=
  mk_system construct t0 (replicate n (mk_thread Outside ∅)).

Definition inside (t : thread) : bool :=
  match th_pc t with
  | Inside => true
  | _ => false
  end.

(** Has the thread claimed the flag and not yet cleared it? So it is for a
    thread inside, and for one whose [lock] is about to return. *)
Definition holds (t : thread) : bool :=
  match th_pc t with
  | Inside | Locking _ LockReturn => true
  | _ => false
  end.

(** The number of threads in the critical section. *)
Definition owners (s : system) : nat :=
  length (filter (fun t => inside t = true) (sys_threads s)).

End Threads.

Import Threads.

(* ===================================================================== *)
(** ** The cadence of [lock], as the specification words it *)
(* ===================================================================== *)

Module Cadence.

Inductive phase_end : Type :=
| Claimed    (* the claim succeeded *)
| Expired.   (* the elapsed time of the phase reached the wait time *)

Section Grammar.

Variable clock_period : ratio.
Variable cls : spinlock_class.
Variable wait_time : Z.

(** The time elapsed in the phase begun at [start], read at [now], has
    reached [wait_time]: [now - start] ticks of the clock last at least as
    long as [wait_time] ticks of [duration_type]. Both are lengths of time,
    ticks times period, compared as fractions. *)
Definition reached (start now : Z) : Prop :=
  wait_time * (num (duration_type cls) * den clock_period)
  <= (now - start) * (num clock_period * den (duration_type cls)).

(** One spin phase begun at [start]: claim attempts in a tight loop, the
    elapsed time of the phase measured after each failure, until either a
    claim succeeds or the elapsed time has reached [wait_time]. *)
Inductive spin_phase (start : Z) : list event -> phase_end -> Prop :=
| spin_claimed :
    spin_phase start [EvTestAndSet memory_order_acquire false] Claimed
| spin_expired (now : Z) :
    reached start now ->
    spin_phase start [EvTestAndSet memory_order_acquire true; EvNow now] Expired
| spin_again (now : Z) (tr : list event) (e : phase_end) :
    ~ reached start now ->
    spin_phase start tr e ->
    spin_phase start
      (EvTestAndSet memory_order_acquire true :: EvNow now :: tr) e.

(** A whole call: phases that expire are each followed by exactly one
    yield and a new phase with a new start; the call ends with the phase
    in which the claim succeeds. *)
Inductive lock_cadence : list event -> Prop :=
| cadence_claimed (start : Z) (tr : list event) :
    spin_phase start tr Claimed ->
    lock_cadence (EvNow start :: tr)
| cadence_yielded (start : Z) (tr rest : list event) :
    spin_phase start tr Expired ->
    lock_cadence rest ->
    lock_cadence (EvNow start :: tr ++ EvYield :: rest).

(** What may follow a claim attempt of the phase begun at [start]: the
    rest of a phase that ends the call, or the rest of a phase that
    expires, one yield, and further phases. *)
Definition after_test (start : Z) (tr : list event) : Prop :=
  spin_phase start tr Claimed
  \/ exists tr1 rest,
      tr = tr1 ++ EvYield :: rest
      /\ spin_phase start tr1 Expired
      /\ lock_cadence rest.

(** What remains to be seen of a call that has reached [pc]. *)
Definition cadence_from (pc : lock_pc) (tr : list event) : Prop :=
  match pc with
  | LockStart => lock_cadence tr
  | LockTest start => after_test start tr
  | LockElapsed start =>
      after_test start (EvTestAndSet memory_order_acquire true :: tr)
  | LockYield => exists rest, tr = EvYield :: rest /\ lock_cadence rest
  | LockReturn => tr = []
  end.

End Grammar.

End Cadence.

Import Cadence.

(** Invariants of the system of threads. *)
Module Invariants.

Definition flag_of (s : system) : atomic_flag := lock_flag (sys_lock s).

(** At most one thread holds the lock, and while one does the flag is set. *)
Definition mutex_inv (s : system) : Prop :=
  (forall (i j : nat) (ti tj : thread),
      sys_threads s !! i = Some ti ->
      sys_threads s !! j = Some tj ->
      holds ti = true -> holds tj = true -> i = j)
  /\ (forall (i : nat) (t : thread),
        sys_threads s !! i = Some t ->
        holds t = true -> flag_set (flag_of s) = true).

(** The writes in [V] have been handed on with the lock: the free flag
    publishes them, and a thread that holds the lock has them in view. *)
Definition handed_on (V : view) (s : system) : Prop :=
  (flag_set (flag_of s) = false -> V ⊆ flag_view (flag_of s))
  /\ (forall (i : nat) (t : thread),
        sys_threads s !! i = Some t ->
        holds t = true -> V ⊆ th_view t).

(** What one action of a thread does to the thread and to the flag. *)
Inductive transition (t : thread) (f : atomic_flag) (t' : thread) (f' : atomic_flag)
  : Prop :=
| tr_same :
    holds t' = holds t -> f' = f -> th_view t ⊆ th_view t' ->
    transition t f t' f'
| tr_claim :
    holds t = false -> holds t' = true ->
    flag_set f = false -> f' = mk_flag true (flag_view f) ->
    th_view t' = th_view t ∪ flag_view f ->
    transition t f t' f'
| tr_release :
    holds t = true -> holds t' = false ->
    f' = mk_flag false (th_view t) -> th_view t' = th_view t ->
    transition t f t' f'.

End Invariants.

Import Invariants.

(** The parts of a run of a member function. *)
Definition result_of {A} (r : A * context * list event) : A := fst (fst r).
Definition context_of {A} (r : A * context * list event) : context := snd (fst r).
Definition trace_of {A} (r : A * context * list event) : list event := snd r.

(** Environment moves used in examples: another thread holds the lock while
    60 ticks pass; another thread has released it; nothing happens. *)
Definition busy : env_move := mk_env_move (Some (mk_flag true ∅)) 60.
Definition freed : env_move := mk_env_move (Some (mk_flag false ∅)) 1.
Definition released : env_move := mk_env_move (Some (mk_flag false ∅)) 0.
Definition idle : env_move := mk_env_move None 0.

(** A schedule of two threads: thread 0 takes the lock with [try_lock] while
    thread 1 enters [lock] and fails its first claim; thread 0 writes, unlocks,
    and thread 1's next claim succeeds. *)
Definition contended_start : list label :=
  [Act 0 TryLock; Act 1 (CallLock None); Act 1 LockStep; Act 1 LockStep].
Definition handover : list label :=
  [Tick 5; Act 1 LockStep; Act 1 LockStep].
Definition example_schedule : list label :=
  contended_start ++ [Act 0 (Write 7); Act 0 Unlock] ++ handover.

(** An instance with nanosecond resolution and a default wait of 100 ticks,
    and a context with a free lock. *)
Definition example_class : spinlock_class := mk_class nano (Compiled 100).
Definition hours : ratio := mk_ratio 3600 1.
Definition atto : ratio := mk_ratio 1 1000000000000000000.

(** An instance whose [duration_type] counts attoseconds, and a move in which
    ten seconds pass on a nanosecond clock: more than 64 bits hold in
    attoseconds. *)
Definition atto_class : spinlock_class := mk_class atto (Compiled 1).
Definition ten_seconds : env_move := mk_env_move None 10000000000.
Definition example_context : context := mk_context ∅ construct 0.
Definition held_context : context := mk_context ∅ (mk_spinlock (mk_flag true ∅)) 0.

(** The state two threads reach from the start along a schedule. *)
Definition state_after (ls : list label) : system :=
  match exec_all nano example_class ls (init 2 0) with
  | Some s => s
  | None => init 2 0
  end.

(* ===================================================================== *)
(** ** Properties of [try_lock], [unlock] and construction *)
(* ===================================================================== *)

(** The ticks the clock advances over a list of environment moves. *)
Definition total_ticks (ms : list env_move) : Z :=
  fold_right (fun m acc => Z.of_N (em_ticks m) + acc) 0 ms.

(** The clock stays within [T] ticks of the start of the running phase for
    the rest of the moves [ms]. *)
Definition bounded (T : Z) (ms : list env_move) (pc : lock_pc) (cx : context) : Prop :=
  match pc with
  | LockStart | LockYield => total_ticks ms <= T
  | LockTest start | LockElapsed start =>
      start <= cx_clock cx /\ cx_clock cx + total_ticks ms - start <= T
  | LockReturn => True
  end.

(** The same, for a call that has not yielded and is not about to. *)
Definition within (T : Z) (ms : list env_move) (pc : lock_pc) (cx : context) : Prop :=
  match pc with
  | LockYield => False
  | _ => bounded T ms pc cx
  end.

(** Converting [T] ticks of the clock to [duration_type] does not overflow:
    the 64-bit product is the true one. *)
Definition no_overflow (clock_period : ratio) (cls : spinlock_class) (T : Z) : Prop :=
  T * cf_num clock_period (duration_type cls) <= int64_max.

(** Counting the events of a trace. *)
Definition is_yield (e : event) : bool :=
  match e with
  | EvYield => true
  | _ => false
  end.

Definition is_failed_claim (e : event) : bool :=
  match e with
  | EvTestAndSet _ true => true
  | _ => false
  end.

Fixpoint count_events (p : event -> bool) (tr : list event) : nat :=
  match tr with
  | [] => 0%nat
  | e :: tr' => ((if p e then 1 else 0) + count_events p tr')%nat
  end.

(** Thread [i] has taken the lock: it is inside and the flag is set. *)
Definition taken (i : nat) (s' : system) : Prop :=
  exists t', sys_threads s' !! i = Some t'
             /\ th_pc t' = Inside
             /\ flag_set (flag_of s') = true.

(** The state in which thread 1 waits in [lock (w)], about to attempt a claim
    in the phase begun at [t0], while thread 0 is outside and the lock free. *)
Definition waiting (w t0 : Z) (v0 v1 fv : view) : system :=
  mk_system (mk_spinlock (mk_flag false fv)) t0
            [mk_thread Outside v0; mk_thread (Locking w (LockTest t0)) v1].

(** The yields a call at [pc] may still make without a further failed claim. *)
Definition yield_credit (pc : lock_pc) : nat :=
  match pc with
  | LockElapsed _ | LockYield => 1%nat
  | _ => 0%nat
  end.

(** An unfair schedule of two threads: thread 1 enters [lock (w)]; then, [k]
    times over, thread 0 takes the lock just before thread 1 attempts its
    claim and releases it just after. *)
Definition starve_round : list label :=
  [Act 0 TryLock; Act 1 LockStep; Act 0 Unlock; Act 1 LockStep].

Fixpoint starve_rounds (k : nat) : list label :=
  match k with
  | O => []
  | S k' => starve_round ++ starve_rounds k'
  end.

Definition starve (w : Z) (k : nat) : list label :=
  [Act 1 (CallLock (Some w)); Act 1 LockStep] ++ starve_rounds k.

Lemma result_of_triple {A} (a : A) (cx : context) (tr : list event) :
  result_of (a, cx, tr) = a.
Proof. reflexivity. Qed.

Lemma context_of_triple {A} (a : A) (cx : context) (tr : list event) :
  context_of (a, cx, tr) = cx.
Proof. reflexivity. Qed.

Lemma trace_of_triple {A} (a : A) (cx : context) (tr : list event) :
  trace_of (a, cx, tr) = tr.
Proof. reflexivity. Qed.

Ltac proj_simpl :=
  repeat (rewrite result_of_triple || rewrite context_of_triple
          || rewrite trace_of_triple).

Section Sequential.

Implicit Types cx : context.

Lemma try_lock_unfold cx :
  try_lock cx =
    (negb (held cx),
     mk_context (cx_view cx ∪ flag_view (lock_flag (cx_lock cx)))
                (mk_spinlock (mk_flag true (flag_view (lock_flag (cx_lock cx)))))
                (cx_clock cx),
     [EvTestAndSet memory_order_acquire (held cx)]).
Proof. reflexivity. Qed.

Lemma unlock_unfold cx :
  unlock cx =
    (tt,
     mk_context (cx_view cx) (mk_spinlock (mk_flag false (cx_view cx))) (cx_clock cx),
     [EvClear memory_order_release]).
Proof. reflexivity. Qed.

Lemma held_lock_eta cx :
  held cx = true ->
  mk_spinlock (mk_flag true (flag_view (lock_flag (cx_lock cx)))) = cx_lock cx.
Proof.
  destruct cx as [tv [[b fv]] t]; unfold held; simpl.
  intros ->. reflexivity.
Qed.

End Sequential.

(** C2. A [try_lock] on a free lock returns true and leaves the lock held; on
    a held lock it returns false and leaves the lock (and the clock) as they
    were. Either way the call is exactly one acquire test-and-set: no second
    attempt, no clock reading, no yield. *)
Theorem try_lock_correct (cx : context) :
  (held cx = false ->
   result_of (try_lock cx) = true
   /\ held (context_of (try_lock cx)) = true
   /\ trace_of (try_lock cx) = [EvTestAndSet memory_order_acquire false])
  /\
  (held cx = true ->
   result_of (try_lock cx) = false
   /\ cx_lock (context_of (try_lock cx)) = cx_lock cx
   /\ cx_clock (context_of (try_lock cx)) = cx_clock cx
   /\ trace_of (try_lock cx) = [EvTestAndSet memory_order_acquire true]).
Proof.
  rewrite try_lock_unfold.
  unfold result_of, context_of, trace_of; simpl.
  split; intros Hheld.
  - rewrite Hheld. repeat split.
  - rewrite Hheld. repeat split.
    now apply held_lock_eta.
Qed.

Lemma try_lock_correct_witness :
  (held example_context = false /\
   result_of (try_lock example_context) = true /\
   held (context_of (try_lock example_context)) = true /\
   trace_of (try_lock example_context) = [EvTestAndSet memory_order_acquire false])
  /\
  (held held_context = true /\
   result_of (try_lock held_context) = false /\
   cx_lock (context_of (try_lock held_context)) = cx_lock held_context /\
   cx_clock (context_of (try_lock held_context)) = cx_clock held_context /\
   trace_of (try_lock held_context) = [EvTestAndSet memory_order_acquire true]).
Proof.
  split.
  - split; [reflexivity |].
    exact (proj1 (try_lock_correct example_context) eq_refl).
  - split; [reflexivity |].
    exact (proj2 (try_lock_correct held_context) eq_refl).
Defined.

Section SystemSteps.

Variable clock_period : ratio.
Variable cls : spinlock_class.

Lemma lookup_insert_self (ts : list thread) (i : nat) (t t' : thread) :
  ts !! i = Some t -> <[i := t']> ts !! i = Some t'.
Proof.
  intros Hi. apply list_lookup_insert_eq.
  exact (lookup_lt_Some _ _ _ Hi).
Qed.

Lemma exec_try_lock (s : system) (i : nat) (t : thread) :
  sys_threads s !! i = Some t ->
  th_pc t = Outside ->
  exec clock_period cls (Act i TryLock) s =
    Some (run_in s i t try_lock (fun b : bool => if b then Inside else Outside)).
Proof. intros Hi Hpc. simpl. rewrite Hi, Hpc. reflexivity. Qed.

Lemma exec_unlock (s : system) (i : nat) (t : thread) :
  sys_threads s !! i = Some t ->
  th_pc t = Inside ->
  exec clock_period cls (Act i Unlock) s =
    Some (run_in s i t unlock (fun _ => Outside)).
Proof. intros Hi Hpc. simpl. rewrite Hi, Hpc. reflexivity. Qed.

End SystemSteps.

(** C5. [unlock] is one release-ordered clear that leaves the cell free,
    whatever it held. Neither [unlock] nor [try_lock] waits: each is a single
    atomic action with no clock reading and no yield, and in a system of
    threads one step completes the call whatever the flag holds, leaving the
    caller outside any call. *)
Theorem unlock_clears_without_waiting
    (clock_period : ratio) (cls : spinlock_class) :
  (forall cx : context,
      trace_of (unlock cx) = [EvClear memory_order_release]
      /\ held (context_of (unlock cx)) = false
      /\ trace_of (try_lock cx) = [EvTestAndSet memory_order_acquire (held cx)])
  /\
  (forall (s : system) (i : nat) (t : thread),
      sys_threads s !! i = Some t ->
      (th_pc t = Inside ->
       exists s' t',
         exec clock_period cls (Act i Unlock) s = Some s'
         /\ sys_threads s' !! i = Some t'
         /\ th_pc t' = Outside
         /\ flag_set (lock_flag (sys_lock s')) = false)
      /\
      (th_pc t = Outside ->
       exists s' t',
         exec clock_period cls (Act i TryLock) s = Some s'
         /\ sys_threads s' !! i = Some t'
         /\ th_pc t' = (if flag_set (lock_flag (sys_lock s)) then Outside else Inside))).
Proof.
  split.
  - intros cx. repeat split.
  - intros s i t Hi. split; intros Hpc.
    + eexists _, _. split; [exact (exec_unlock _ _ s i t Hi Hpc) |].
      unfold run_in. rewrite unlock_unfold. simpl.
      split; [exact (lookup_insert_self _ i t _ Hi) |].
      split; reflexivity.
    + eexists _, _. split; [exact (exec_try_lock _ _ s i t Hi Hpc) |].
      unfold run_in. rewrite try_lock_unfold. simpl.
      split; [exact (lookup_insert_self _ i t _ Hi) |].
      unfold held; simpl. now destruct (flag_set (lock_flag (sys_lock s))).
Qed.

Lemma unlock_clears_without_waiting_witness :
  (exists s' t',
      exec nano example_class (Act 0 Unlock)
           (mk_system (mk_spinlock (mk_flag true ∅)) 0 [mk_thread Inside ∅]) = Some s'
      /\ sys_threads s' !! 0%nat = Some t'
      /\ th_pc t' = Outside
      /\ flag_set (lock_flag (sys_lock s')) = false)
  /\
  (exists s' t',
      exec nano example_class (Act 0 TryLock)
           (mk_system (mk_spinlock (mk_flag true ∅)) 0 [mk_thread Outside ∅]) = Some s'
      /\ sys_threads s' !! 0%nat = Some t'
      /\ th_pc t' = Outside).
Proof.
  split.
  - refine (proj1 (proj2 (unlock_clears_without_waiting nano example_class)
                     (mk_system (mk_spinlock (mk_flag true ∅)) 0 [mk_thread Inside ∅])
                     0%nat (mk_thread Inside ∅) _) _); reflexivity.
  - refine (proj2 (proj2 (unlock_clears_without_waiting nano example_class)
                     (mk_system (mk_spinlock (mk_flag true ∅)) 0 [mk_thread Outside ∅])
                     0%nat (mk_thread Outside ∅) _) _); reflexivity.
Defined.

(** C6. Construction leaves the lock free, and on a freshly constructed lock
    [try_lock], [try_lock], [unlock], [try_lock] return true, false and, after
    the unlock, true again. *)
Theorem single_thread_round_trip (tv : view) (t : Z) :
  flag_set (lock_flag construct) = false
  /\ result_of
       ((r1 <- try_lock ;;
         r2 <- try_lock ;;
         _ <- unlock ;;
         r3 <- try_lock ;;
         ret (r1, r2, r3)) (mk_context tv construct t))
     = (true, false, true).
Proof. split; reflexivity. Qed.

(** C9. [unlock] is defined in every state and always ends in the free state:
    on a held lock, on a free lock (which stays free), and a second [unlock]
    right after a first changes nothing more. *)
Theorem unlock_total_idempotent (cx : context) :
  held (context_of (unlock cx)) = false
  /\ context_of (unlock (context_of (unlock cx))) = context_of (unlock cx).
Proof. split; reflexivity. Qed.



(* ===================================================================== *)
(** ** Runs of [lock] *)
(* ===================================================================== *)

Section Conversions.

Lemma total_ticks_nonneg (ms : list env_move) : 0 <= total_ticks ms.
Proof. induction ms as [| m ms IH]; simpl; lia. Qed.

Lemma total_ticks_cons (m : env_move) (ms : list env_move) :
  total_ticks (m :: ms) = Z.of_N (em_ticks m) + total_ticks ms.
Proof. reflexivity. Qed.

Lemma total_ticks_app (ms1 ms2 : list env_move) :
  total_ticks (ms1 ++ ms2) = total_ticks ms1 + total_ticks ms2.
Proof. induction ms1 as [| m ms1 IH]; simpl; lia. Qed.

(** The conversion factor of two positive periods is a positive fraction in
    lowest terms of the quotient of the periods. *)
Lemma cf_spec (from to : ratio) :
  ratio_ok from -> ratio_ok to ->
  exists g,
    0 < g /\ 0 < cf_num from to /\ 0 < cf_den from to
    /\ num from * den to = cf_num from to * g
    /\ den from * num to = cf_den from to * g.
Proof.
  intros [Hfn Hfd] [Htn Htd]. unfold cf_num, cf_den.
  set (n := num from * den to). set (d := den from * num to).
  assert (Hn : 0 < n) by (unfold n; nia).
  assert (Hd : 0 < d) by (unfold d; nia).
  assert (Hg : 0 < Z.gcd n d).
  { pose proof (Z.gcd_nonneg n d).
    assert (Z.gcd n d <> 0) by (intros H0; apply Z.gcd_eq_0_l in H0; lia).
    lia. }
  destruct (Z.gcd_divide_l n d) as [qn Hqn].
  destruct (Z.gcd_divide_r n d) as [qd Hqd].
  exists (Z.gcd n d).
  assert (Hdn : n / Z.gcd n d = qn)
    by (rewrite Hqn at 1; apply Z.div_mul; lia).
  assert (Hdd : d / Z.gcd n d = qd)
    by (rewrite Hqd at 1; apply Z.div_mul; lia).
  rewrite Hdn, Hdd. repeat split; try assumption; try nia.
Qed.

(** In range, the 64-bit value is the value. *)
Lemma wrap64_small (z : Z) : int64_min <= z <= int64_max -> wrap64 z = z.
Proof.
  unfold int64_min, int64_max, wrap64. intros Hz.
  rewrite Z.mod_small by lia. lia.
Qed.

(** Wrapping never makes a value that is not negative larger. *)
Lemma wrap64_le (z : Z) : 0 <= z -> wrap64 z <= z.
Proof.
  unfold wrap64. intros Hz.
  assert ((z + 9223372036854775808) mod 18446744073709551616
          <= z + 9223372036854775808) by (apply Z.mod_le; lia).
  lia.
Qed.

(** A product of a wrapped factor wraps to what the true product wraps to. *)
Lemma wrap64_mul (a b : Z) : wrap64 (wrap64 a * b) = wrap64 (a * b).
Proof.
  unfold wrap64.
  set (M := 18446744073709551616). set (H := 9223372036854775808).
  rewrite (Z.mod_eq (a + H) M) by (unfold M; lia).
  replace ((a + H - M * ((a + H) / M) - H) * b + H)
    with (a * b + H + (- ((a + H) / M) * b) * M) by ring.
  now rewrite Z.mod_add by (unfold M; lia).
Qed.

(** Without overflow the run-time conversion is the exact one. *)
Lemma duration_cast_exact (from to : ratio) (c : Z) :
  int64_min <= c * cf_num from to <= int64_max ->
  duration_cast from to c = exact_cast from to c.
Proof. intros Hc. unfold duration_cast, exact_cast. now rewrite wrap64_small. Qed.

Lemma exact_cast_mono (from to : ratio) (c1 c2 : Z) :
  ratio_ok from -> ratio_ok to -> c1 <= c2 ->
  exact_cast from to c1 <= exact_cast from to c2.
Proof.
  intros Hf Ht Hc. destruct (cf_spec from to Hf Ht) as (g & Hg & Hn & Hd & _).
  unfold exact_cast. apply Z.quot_le_mono; [lia | nia].
Qed.

(** A run-time conversion of an elapsed count never exceeds the exact one. *)
Lemma duration_cast_le_exact (from to : ratio) (c : Z) :
  ratio_ok from -> ratio_ok to -> 0 <= c ->
  duration_cast from to (wrap64 c) <= exact_cast from to c.
Proof.
  intros Hf Ht Hc. destruct (cf_spec from to Hf Ht) as (g & Hg & Hn & Hd & _).
  unfold duration_cast, exact_cast. rewrite wrap64_mul.
  apply Z.quot_le_mono; [lia |]. apply wrap64_le. nia.
Qed.

(** An exact conversion reaches [w] exactly when the length of time does. *)
Lemma exact_cast_reaches (from to : ratio) (c w : Z) :
  ratio_ok from -> ratio_ok to -> 0 <= c ->
  w <= exact_cast from to c
  <-> w * (num to * den from) <= c * (num from * den to).
Proof.
  intros Hf Ht Hc.
  destruct (cf_spec from to Hf Ht) as (g & Hg & Hn & Hd & Hnum & Hden).
  unfold exact_cast.
  rewrite Z.quot_div_nonneg by nia.
  replace (num to * den from) with (cf_den from to * g) by lia.
  rewrite Hnum.
  pose proof (Z.mul_div_le (c * cf_num from to) (cf_den from to) Hd).
  pose proof (Z.mod_pos_bound (c * cf_num from to) (cf_den from to) Hd).
  pose proof (Z.div_mod (c * cf_num from to) (cf_den from to) ltac:(lia)).
  split; intros H'; nia.
Qed.

End Conversions.

Section LockRuns.

Variable clock_period : ratio.
Variable cls : spinlock_class.
Variable wait_time : Z.

Local Abbreviation step := (lock_step clock_period cls wait_time).
Local Abbreviation run := (lock_run clock_period cls wait_time).
Local Abbreviation claim_ok := (EvTestAndSet memory_order_acquire false).
Local Abbreviation claim_failed := (EvTestAndSet memory_order_acquire true).

Implicit Types (pc : lock_pc) (cx : context) (tr : list event)
  (m : env_move) (ms : list env_move).

(** The four actions, spelled out. *)
Lemma step_start cx :
  step LockStart cx = (LockTest (cx_clock cx), cx, [EvNow (cx_clock cx)]).
Proof. reflexivity. Qed.

Lemma step_test start cx :
  step (LockTest start) cx =
    (if held cx then LockElapsed start else LockReturn,
     context_of (try_lock cx),
     [EvTestAndSet memory_order_acquire (held cx)]).
Proof. reflexivity. Qed.

Lemma step_elapsed start cx :
  step (LockElapsed start) cx =
    (if elapsed_since clock_period cls start (cx_clock cx) >=? wait_time
     then LockYield else LockTest start,
     cx, [EvNow (cx_clock cx)]).
Proof. reflexivity. Qed.

Lemma step_yield cx : step LockYield cx = (LockStart, cx, [EvYield]).
Proof. reflexivity. Qed.

Lemma run_nil pc cx : run [] pc cx = (pc, cx, []).
Proof. now destruct pc. Qed.

Lemma run_returned ms cx : run ms LockReturn cx = (LockReturn, cx, []).
Proof. now destruct ms. Qed.

Lemma run_cons m ms pc cx :
  pc <> LockReturn ->
  run (m :: ms) pc cx =
    (result_of (run ms (result_of (step pc (env_apply m cx)))
                       (context_of (step pc (env_apply m cx)))),
     context_of (run ms (result_of (step pc (env_apply m cx)))
                        (context_of (step pc (env_apply m cx)))),
     trace_of (step pc (env_apply m cx))
       ++ trace_of (run ms (result_of (step pc (env_apply m cx)))
                           (context_of (step pc (env_apply m cx))))).
Proof.
  intros Hpc. unfold result_of, context_of, trace_of.
  destruct pc; try congruence; simpl;
    repeat match goal with
           | |- context [let '(_, _) := ?e in _] => destruct e as [[? ?] ?]
           end; reflexivity.
Qed.

Lemma run_cons_result m ms pc cx :
  pc <> LockReturn ->
  result_of (run (m :: ms) pc cx) =
    result_of (run ms (result_of (step pc (env_apply m cx)))
                      (context_of (step pc (env_apply m cx)))).
Proof. intros Hpc. now rewrite run_cons. Qed.

Lemma run_cons_context m ms pc cx :
  pc <> LockReturn ->
  context_of (run (m :: ms) pc cx) =
    context_of (run ms (result_of (step pc (env_apply m cx)))
                       (context_of (step pc (env_apply m cx)))).
Proof. intros Hpc. now rewrite run_cons. Qed.

Lemma run_cons_trace m ms pc cx :
  pc <> LockReturn ->
  trace_of (run (m :: ms) pc cx) =
    trace_of (step pc (env_apply m cx))
      ++ trace_of (run ms (result_of (step pc (env_apply m cx)))
                          (context_of (step pc (env_apply m cx)))).
Proof. intros Hpc. now rewrite run_cons. Qed.

Lemma run_eta ms pc cx :
  run ms pc cx =
    (result_of (run ms pc cx), context_of (run ms pc cx), trace_of (run ms pc cx)).
Proof. now destruct (run ms pc cx) as [[? ?] ?]. Qed.

(** A run over [ms1 ++ ms2] is the run over [ms1] continued over [ms2]. *)
Lemma run_app ms1 ms2 pc cx :
  run (ms1 ++ ms2) pc cx =
    (result_of (run ms2 (result_of (run ms1 pc cx)) (context_of (run ms1 pc cx))),
     context_of (run ms2 (result_of (run ms1 pc cx)) (context_of (run ms1 pc cx))),
     trace_of (run ms1 pc cx)
       ++ trace_of (run ms2 (result_of (run ms1 pc cx)) (context_of (run ms1 pc cx)))).
Proof.
  revert pc cx. induction ms1 as [| m ms1 IH]; intros pc cx.
  - rewrite run_nil. simpl. apply run_eta.
  - destruct (lock_pc_eq_dec pc LockReturn) as [-> | Hpc].
    + rewrite !run_returned. unfold result_of, context_of, trace_of; simpl.
      rewrite ?run_returned. reflexivity.
    + change ((m :: ms1) ++ ms2) with (m :: (ms1 ++ ms2)).
      rewrite (run_cons m (ms1 ++ ms2)), (run_cons m ms1) by assumption.
      rewrite IH. unfold result_of, context_of, trace_of; cbn [fst snd].
      now rewrite app_assoc.
Qed.

(** The only action that returns is a claim that succeeds. *)
Lemma step_returns pc cx :
  pc <> LockReturn ->
  result_of (step pc cx) = LockReturn ->
  trace_of (step pc cx) = [claim_ok] /\ held (context_of (step pc cx)) = true.
Proof.
  intros Hpc. destruct pc as [| start | start | |]; try congruence.
  - rewrite step_start. discriminate.
  - rewrite step_test. unfold result_of, trace_of, context_of; simpl.
    destruct (held cx); [discriminate | now split].
  - rewrite step_elapsed. unfold result_of; simpl.
    now destruct (_ >=? _).
  - rewrite step_yield. discriminate.
Qed.

Lemma step_goes_on pc cx :
  result_of (step pc cx) <> LockReturn ->
  claim_ok ∉ trace_of (step pc cx).
Proof.
  destruct pc as [| start | start | |].
  - rewrite step_start. unfold trace_of; simpl.
    intros _ Hin. now apply list_elem_of_singleton in Hin.
  - rewrite step_test. unfold result_of, trace_of; simpl.
    destruct (held cx); [| congruence].
    intros _ Hin. now apply list_elem_of_singleton in Hin.
  - rewrite step_elapsed. unfold trace_of; simpl.
    intros _ Hin. now apply list_elem_of_singleton in Hin.
  - rewrite step_yield. unfold trace_of; simpl.
    intros _ Hin. now apply list_elem_of_singleton in Hin.
  - unfold result_of; simpl. congruence.
Qed.

(** A run that returns ends with the lock held, on the one successful claim
    of its trace. *)
Lemma run_returns ms pc cx :
  pc <> LockReturn ->
  result_of (run ms pc cx) = LockReturn ->
  held (context_of (run ms pc cx)) = true
  /\ exists tr0, trace_of (run ms pc cx) = tr0 ++ [claim_ok] /\ claim_ok ∉ tr0.
Proof.
  revert pc cx. induction ms as [| m ms IH]; intros pc cx Hpc.
  - rewrite run_nil. unfold result_of; simpl. congruence.
  - rewrite run_cons_result, run_cons_context, run_cons_trace by assumption.
    destruct (lock_pc_eq_dec (result_of (step pc (env_apply m cx))) LockReturn)
      as [Hret | Hgo].
    + destruct (step_returns _ _ Hpc Hret) as [Htr Hheld].
      intros _. rewrite Hret, Htr, !run_returned.
      split; [exact Hheld |].
      exists []. split; [reflexivity | apply not_elem_of_nil].
    + intros Hres. destruct (IH _ _ Hgo Hres) as [Hheld (tr0 & Htr & Hno)].
      split; [assumption |].
      exists (trace_of (step pc (env_apply m cx)) ++ tr0).
      rewrite Htr, app_assoc. split; [reflexivity |].
      apply not_elem_of_app. split; [now apply step_goes_on | assumption].
Qed.

(** A run returns exactly when a claim has succeeded in it. *)
Lemma run_returns_iff ms pc cx :
  pc <> LockReturn ->
  result_of (run ms pc cx) = LockReturn <-> claim_ok ∈ trace_of (run ms pc cx).
Proof.
  intros Hpc. split.
  - intros Hres. destruct (run_returns _ _ _ Hpc Hres) as [_ (tr0 & -> & _)].
    apply elem_of_app. right. now apply list_elem_of_singleton.
  - revert pc cx Hpc. induction ms as [| m ms IH]; intros pc cx Hpc.
    + rewrite run_nil. unfold trace_of; simpl.
      intros Hin. now apply elem_of_nil in Hin.
    + rewrite run_cons_result, run_cons_trace by assumption.
      destruct (lock_pc_eq_dec (result_of (step pc (env_apply m cx))) LockReturn)
        as [Hret | Hgo].
      * rewrite Hret, !run_returned. reflexivity.
      * intros Hin. apply IH; [assumption |].
        apply elem_of_app in Hin. destruct Hin as [Hin | Hin]; [| assumption].
        now apply step_goes_on in Hin.
Qed.

(** *** Whenever the flag is found free, the call returns *)

Lemma run_test_free m ms start cx :
  held (env_apply m cx) = false ->
  result_of (run (m :: ms) (LockTest start) cx) = LockReturn.
Proof.
  intros Hfree. rewrite run_cons_result by discriminate.
  rewrite step_test, Hfree. proj_simpl.
  now rewrite run_returned.
Qed.

Lemma run_start_free m1 m2 ms cx :
  held (env_apply m2 (env_apply m1 cx)) = false ->
  result_of (run (m1 :: m2 :: ms) LockStart cx) = LockReturn.
Proof.
  intros Hfree. rewrite run_cons_result by discriminate.
  rewrite step_start. proj_simpl.
  now apply run_test_free.
Qed.

Lemma run_completes pc cx :
  result_of (run [freed; freed; freed; freed] pc cx) = LockReturn.
Proof.
  destruct pc as [| start | start | |].
  - now apply run_start_free.
  - now apply run_test_free.
  - rewrite run_cons_result by discriminate.
    rewrite step_elapsed. proj_simpl.
    destruct (_ >=? _).
    + rewrite run_cons_result by discriminate.
      rewrite step_yield. proj_simpl.
      now apply run_start_free.
    + now apply run_test_free.
  - rewrite run_cons_result by discriminate.
    rewrite step_yield. proj_simpl.
    now apply run_start_free.
  - now rewrite run_returned.
Qed.

(** Any run can be continued to one that returns. *)
Lemma run_can_return ms pc cx :
  result_of (run (ms ++ [freed; freed; freed; freed]) pc cx) = LockReturn.
Proof.
  rewrite run_app. proj_simpl.
  apply run_completes.
Qed.

Lemma run_completes_quiet pc cx :
  result_of (run [released; released; released; released] pc cx) = LockReturn.
Proof.
  destruct pc as [| start | start | |].
  - now apply run_start_free.
  - now apply run_test_free.
  - rewrite run_cons_result by discriminate.
    rewrite step_elapsed. proj_simpl.
    destruct (_ >=? _).
    + rewrite run_cons_result by discriminate.
      rewrite step_yield. proj_simpl.
      now apply run_start_free.
    + now apply run_test_free.
  - rewrite run_cons_result by discriminate.
    rewrite step_yield. proj_simpl.
    now apply run_start_free.
  - now rewrite run_returned.
Qed.

Lemma run_can_return_quiet ms pc cx :
  result_of (run (ms ++ [released; released; released; released]) pc cx) = LockReturn.
Proof.
  rewrite run_app. proj_simpl.
  apply run_completes_quiet.
Qed.

(** *** The clock stays within bounds under a running phase *)

Lemma env_apply_clock m cx :
  cx_clock (env_apply m cx) = cx_clock cx + Z.of_N (em_ticks m).
Proof. reflexivity. Qed.

Lemma bounded_step (T : Z) m ms pc cx :
  pc <> LockReturn ->
  bounded T (m :: ms) pc cx ->
  bounded T ms (result_of (step pc (env_apply m cx)))
               (context_of (step pc (env_apply m cx))).
Proof.
  intros Hpc Hb. pose proof (total_ticks_nonneg ms) as Hms.
  pose proof (env_apply_clock m cx) as Hclock.
  assert (Hm : 0 <= Z.of_N (em_ticks m)) by lia.
  destruct pc as [| start | start | |]; try congruence;
    cbn [bounded] in Hb; rewrite total_ticks_cons in Hb.
  - rewrite step_start. proj_simpl. cbn [bounded]. lia.
  - rewrite step_test. proj_simpl.
    destruct (held (env_apply m cx)); cbn [bounded]; [| exact I].
    change (cx_clock (context_of (try_lock (env_apply m cx))))
      with (cx_clock (env_apply m cx)). lia.
  - rewrite step_elapsed. proj_simpl.
    destruct (_ >=? _); cbn [bounded]; lia.
  - rewrite step_yield. proj_simpl. cbn [bounded]. lia.
Qed.

Lemma run_bounded (T : Z) ms1 ms2 pc cx :
  bounded T (ms1 ++ ms2) pc cx ->
  bounded T ms2 (result_of (run ms1 pc cx)) (context_of (run ms1 pc cx)).
Proof.
  revert pc cx. induction ms1 as [| m ms1 IH]; intros pc cx Hb.
  - rewrite run_nil. now proj_simpl.
  - destruct (lock_pc_eq_dec pc LockReturn) as [-> | Hpc].
    + rewrite run_returned. proj_simpl. exact I.
    + rewrite run_cons_result, run_cons_context by assumption.
      apply IH. now apply bounded_step.
Qed.

(** In a bounded phase whose conversion does not overflow, the comparison of
    line 148 holds exactly when the elapsed time has reached the wait time. *)
Lemma elapsed_reached (T start now : Z) :
  ratio_ok clock_period -> ratio_ok (duration_type cls) ->
  no_overflow clock_period cls T ->
  start <= now -> now - start <= T ->
  (elapsed_since clock_period cls start now >=? wait_time) = true
  <-> reached clock_period cls wait_time start now.
Proof.
  intros Hcp Hdt Hno Hs HT.
  destruct (cf_spec _ _ Hcp Hdt) as (g & Hg & Hn & Hd & _).
  unfold no_overflow in Hno. unfold elapsed_since, reached.
  assert (Hprod : 0 <= (now - start) * cf_num clock_period (duration_type cls)
                  <= int64_max) by nia.
  assert (Hx : int64_min <= now - start <= int64_max)
    by (unfold int64_min, int64_max in *; nia).
  rewrite (wrap64_small _ Hx).
  rewrite duration_cast_exact by (unfold int64_min in *; lia).
  rewrite Z.geb_le.
  apply exact_cast_reaches; try assumption; lia.
Qed.

(** *** The trace of a call that returns follows the cadence *)

Local Abbreviation cadence := (lock_cadence clock_period cls wait_time).
Local Abbreviation phase := (spin_phase clock_period cls wait_time).
Local Abbreviation tail := (after_test clock_period cls wait_time).

Lemma after_test_cadence start tr : tail start tr -> cadence (EvNow start :: tr).
Proof.
  intros [Hclaimed | (tr1 & rest & -> & Hphase & Hrest)].
  - now apply cadence_claimed.
  - now apply cadence_yielded.
Qed.

Lemma after_test_again start now tr :
  ~ reached clock_period cls wait_time start now ->
  tail start tr ->
  tail start (claim_failed :: EvNow now :: tr).
Proof.
  intros Hlt [Hclaimed | (tr1 & rest & -> & Hphase & Hrest)].
  - left. now apply spin_again.
  - right. exists (claim_failed :: EvNow now :: tr1), rest.
    split; [reflexivity |]. split; [now apply spin_again | assumption].
Qed.

Lemma after_test_expired start now rest :
  reached clock_period cls wait_time start now ->
  cadence rest ->
  tail start (claim_failed :: EvNow now :: EvYield :: rest).
Proof.
  intros Hge Hrest. right. exists [claim_failed; EvNow now], rest.
  split; [reflexivity |]. split; [now apply spin_expired | assumption].
Qed.

Lemma run_cadence_from (T : Z) ms pc cx :
  ratio_ok clock_period -> ratio_ok (duration_type cls) ->
  no_overflow clock_period cls T ->
  bounded T ms pc cx ->
  result_of (run ms pc cx) = LockReturn ->
  cadence_from clock_period cls wait_time pc (trace_of (run ms pc cx)).
Proof.
  intros Hcp Hdt Hno. revert pc cx. induction ms as [| m ms IH]; intros pc cx Hb.
  - rewrite run_nil. proj_simpl.
    intros ->. reflexivity.
  - destruct (lock_pc_eq_dec pc LockReturn) as [-> | Hpc].
    + rewrite run_returned. reflexivity.
    + pose proof (bounded_step T m ms pc cx Hpc Hb) as Hb'.
      rewrite run_cons_result, run_cons_trace by assumption.
      destruct pc as [| start | start | |]; try congruence.
      * rewrite step_start in *. revert Hb'. proj_simpl. intros Hb'.
        intros Hres. apply (IH _ _ Hb') in Hres. now apply after_test_cadence.
      * rewrite step_test in *. revert Hb'. proj_simpl.
        destruct (held (env_apply m cx)); intros Hb'.
        -- intros Hres. apply (IH _ _ Hb') in Hres. exact Hres.
        -- intros _. rewrite run_returned. left. apply spin_claimed.
      * assert (Hnow : start <= cx_clock (env_apply m cx)
                       /\ cx_clock (env_apply m cx) - start <= T).
        { pose proof (total_ticks_nonneg ms). rewrite env_apply_clock.
          cbn [bounded] in Hb. rewrite total_ticks_cons in Hb. lia. }
        destruct Hnow as [Hs HT].
        pose proof (elapsed_reached T start _ Hcp Hdt Hno Hs HT) as Hiff.
        rewrite step_elapsed in *. revert Hb'. proj_simpl.
        destruct (elapsed_since clock_period cls start (cx_clock (env_apply m cx))
                    >=? wait_time); intros Hb'.
        -- intros Hres. apply (IH _ _ Hb') in Hres. destruct Hres as (rest & -> & Hrest).
           apply after_test_expired; [now apply Hiff | assumption].
        -- intros Hres. apply (IH _ _ Hb') in Hres.
           apply after_test_again; [| assumption].
           intros Hr. apply Hiff in Hr. discriminate.
      * rewrite step_yield in *. revert Hb'. proj_simpl. intros Hb'.
        intros Hres. apply (IH _ _ Hb') in Hres.
        now exists (trace_of (run ms LockStart (env_apply m cx))).
Qed.

(** *** Calls on a free lock, and calls with a wait time that is not positive *)

Lemma run_free_lock m1 m2 ms cx :
  held (env_apply m2 (env_apply m1 cx)) = false ->
  result_of (run (m1 :: m2 :: ms) LockStart cx) = LockReturn
  /\ trace_of (run (m1 :: m2 :: ms) LockStart cx) =
       [EvNow (cx_clock (env_apply m1 cx)); claim_ok].
Proof.
  intros Hfree. split; [now apply run_start_free |].
  rewrite run_cons_trace by discriminate. rewrite step_start. proj_simpl.
  rewrite run_cons_trace by discriminate. rewrite step_test, Hfree. proj_simpl.
  now rewrite run_returned.
Qed.

Lemma run_first_events m1 m2 ms cx :
  exists start b rest,
    trace_of (run (m1 :: m2 :: ms) LockStart cx) =
      EvNow start :: EvTestAndSet memory_order_acquire b :: rest.
Proof.
  rewrite run_cons_trace by discriminate. rewrite step_start. proj_simpl.
  rewrite run_cons_trace by discriminate. rewrite step_test. proj_simpl.
  now eexists _, _, _.
Qed.

Lemma run_failed_claim_yields (T : Z) start cx m1 m2 m3 m4 :
  wait_time <= 0 ->
  ratio_ok clock_period -> ratio_ok (duration_type cls) ->
  no_overflow clock_period cls T ->
  bounded T [m1; m2] (LockTest start) cx ->
  held (env_apply m1 cx) = true ->
  exists now start',
    result_of (run [m1; m2; m3; m4] (LockTest start) cx) = LockTest start'
    /\ trace_of (run [m1; m2; m3; m4] (LockTest start) cx) =
         [claim_failed; EvNow now; EvYield; EvNow start'].
Proof.
  intros Hw Hcp Hdt Hno Hb Hheld.
  set (cx1 := context_of (try_lock (env_apply m1 cx))).
  set (cx2 := env_apply m2 cx1).
  set (cx3 := env_apply m3 cx2).
  set (cx4 := env_apply m4 cx3).
  assert (Hc2 : start <= cx_clock cx2 /\ cx_clock cx2 - start <= T).
  { cbn [bounded] in Hb. rewrite !total_ticks_cons in Hb.
    change (total_ticks []) with 0 in Hb.
    pose proof (env_apply_clock m1 cx) as H1.
    pose proof (env_apply_clock m2 cx1) as H2.
    change (cx_clock cx1) with (cx_clock (env_apply m1 cx)) in H2.
    change (env_apply m2 cx1) with cx2 in H2.
    destruct Hb as [Hb1 Hb2]. rewrite H2, H1. split; lia. }
  destruct Hc2 as [Hs HT].
  assert (Hexp : (elapsed_since clock_period cls start (cx_clock cx2) >=? wait_time)
                 = true).
  { apply (elapsed_reached T); try assumption.
    destruct Hcp as [Hcn Hcd]. destruct Hdt as [Htn Htd].
    unfold reached.
    transitivity 0.
    - apply Z.mul_nonpos_nonneg; [assumption | nia].
    - apply Z.mul_nonneg_nonneg; [lia | nia]. }
  exists (cx_clock cx2), (cx_clock cx4).
  rewrite run_cons_result, run_cons_trace by discriminate.
  rewrite step_test, Hheld. proj_simpl. fold cx1.
  rewrite run_cons_result, run_cons_trace by discriminate.
  rewrite step_elapsed. fold cx2. rewrite Hexp. proj_simpl.
  rewrite run_cons_result, run_cons_trace by discriminate.
  rewrite step_yield. fold cx3. proj_simpl.
  rewrite run_cons_result, run_cons_trace by discriminate.
  rewrite step_start. fold cx4. proj_simpl.
  rewrite run_nil. proj_simpl. split; reflexivity.
Qed.

End LockRuns.





(* ===================================================================== *)
(** ** Threads around one lock *)
(* ===================================================================== *)

Section System.

Variable clock_period : ratio.
Variable cls : spinlock_class.

Local Abbreviation exec1 := (exec clock_period cls).
Local Abbreviation execs := (exec_all clock_period cls).

(** Every action of a thread is one of the three transitions. *)
Lemma exec_act_transition (i : nat) (a : action) (s s' : system) :
  exec1 (Act i a) s = Some s' ->
  exists t t' f',
    sys_threads s !! i = Some t
    /\ s' = mk_system (mk_spinlock f') (sys_clock s) (<[i := t']> (sys_threads s))
    /\ transition t (flag_of s) t' f'.
Proof.
  destruct s as [[f] clk ts]. unfold flag_of. simpl.
  destruct (ts !! i) as [t |] eqn:Hi; [| discriminate].
  destruct t as [pc tv]. simpl.
  intros Hexec. exists (mk_thread pc tv).
  destruct a as [w | | | | id]; destruct pc as [| w' lpc |]; try discriminate.
  - (* lock is entered *)
    destruct (wait_arg cls w) as [wait_time |]; [| discriminate].
    injection Hexec as <-. eexists _, _. split; [reflexivity |].
    split; [reflexivity |]. now apply tr_same.
  - (* an action of lock *)
    destruct lpc as [| start | start | |]; injection Hexec as <-;
      unfold run_in.
    + simpl. eexists _, _. split; [reflexivity |].
      split; [reflexivity |]. now apply tr_same.
    + destruct f as [[|] fv]; simpl.
      * eexists _, _. split; [reflexivity |].
        split; [reflexivity |]. apply tr_same; simpl; [reflexivity .. | apply union_subseteq_l].
      * eexists _, _. split; [reflexivity |].
        split; [reflexivity |]. now apply tr_claim.
    + simpl. eexists _, _. split; [reflexivity |].
      split; [reflexivity |].
      apply tr_same; simpl; [now destruct (_ >=? _) | reflexivity ..].
    + simpl. eexists _, _. split; [reflexivity |].
      split; [reflexivity |]. now apply tr_same.
    + simpl. eexists _, _. split; [reflexivity |].
      split; [reflexivity |]. now apply tr_same.
  - (* try_lock *)
    injection Hexec as <-. unfold run_in.
    destruct f as [[|] fv]; simpl.
    + eexists _, _. split; [reflexivity |].
      split; [reflexivity |]. apply tr_same; simpl; [reflexivity .. | apply union_subseteq_l].
    + eexists _, _. split; [reflexivity |].
      split; [reflexivity |]. now apply tr_claim.
  - (* unlock *)
    injection Hexec as <-. unfold run_in. simpl.
    eexists _, _. split; [reflexivity |].
    split; [reflexivity |]. now apply tr_release.
  - (* a write outside *)
    injection Hexec as <-. eexists _, _. split; [reflexivity |].
    split; [reflexivity |]. apply tr_same; simpl; [reflexivity .. | apply union_subseteq_l].
  - (* a write inside *)
    injection Hexec as <-. eexists _, _. split; [reflexivity |].
    split; [reflexivity |]. apply tr_same; simpl; [reflexivity .. | apply union_subseteq_l].
Qed.

Lemma lookup_insert_cases (ts : list thread) (i j : nat) (t' x : thread) :
  <[i := t']> ts !! j = Some x ->
  (j = i /\ x = t') \/ (j <> i /\ ts !! j = Some x).
Proof.
  intros H. apply list_lookup_insert_Some in H.
  destruct H as [(-> & -> & _) | (Hne & Hj)]; [left | right]; split; congruence.
Qed.

Lemma exec_tick (d : N) (s s' : system) :
  exec1 (Tick d) s = Some s' ->
  sys_lock s' = sys_lock s /\ sys_threads s' = sys_threads s.
Proof. simpl. intros [= <-]. now split. Qed.

(** *** Mutual exclusion is kept by every transition *)

Lemma mutex_inv_transition (s : system) (i : nat) (t t' : thread)
    (f' : atomic_flag) (clk : Z) :
  mutex_inv s ->
  sys_threads s !! i = Some t ->
  transition t (flag_of s) t' f' ->
  mutex_inv (mk_system (mk_spinlock f') clk (<[i := t']> (sys_threads s))).
Proof.
  intros [Huniq Hflag] Hi Htr. unfold mutex_inv, flag_of in *. simpl.
  destruct Htr as [Hh Hf Hv | Hh Hh' Hfree Hf Hv | Hh Hh' Hf Hv].
  - (* nothing changes hands *)
    assert (Hold : forall j x, <[i := t']> (sys_threads s) !! j = Some x ->
                               holds x = true ->
                               exists y, sys_threads s !! j = Some y /\ holds y = true).
    { intros j x Hj Hx. apply lookup_insert_cases in Hj.
      destruct Hj as [[-> ->] | [_ Hj]]; [exists t | exists x]; split; congruence. }
    split.
    + intros j1 j2 x1 x2 H1 H2 Hx1 Hx2.
      destruct (Hold _ _ H1 Hx1) as (y1 & Hy1 & Hhy1).
      destruct (Hold _ _ H2 Hx2) as (y2 & Hy2 & Hhy2).
      exact (Huniq _ _ _ _ Hy1 Hy2 Hhy1 Hhy2).
    + intros j x Hj Hx. subst f'.
      destruct (Hold _ _ Hj Hx) as (y & Hy & Hhy). exact (Hflag _ _ Hy Hhy).
  - (* the thread claims the free flag: nobody held it *)
    assert (Honly : forall j x, <[i := t']> (sys_threads s) !! j = Some x ->
                                holds x = true -> j = i).
    { intros j x Hj Hx. apply lookup_insert_cases in Hj.
      destruct Hj as [[-> _] | [_ Hj]]; [reflexivity |].
      pose proof (Hflag _ _ Hj Hx). congruence. }
    split.
    + intros j1 j2 x1 x2 H1 H2 Hx1 Hx2.
      rewrite (Honly _ _ H1 Hx1), (Honly _ _ H2 Hx2). reflexivity.
    + intros. subst f'. reflexivity.
  - (* the holder releases: nobody holds afterwards *)
    assert (Hnone : forall j x, <[i := t']> (sys_threads s) !! j = Some x ->
                                holds x = true -> False).
    { intros j x Hj Hx. apply lookup_insert_cases in Hj.
      destruct Hj as [[-> ->] | [Hne Hj]]; [congruence |].
      apply Hne. exact (Huniq _ _ _ _ Hj Hi Hx Hh). }
    split.
    + intros j1 j2 x1 x2 H1 _ Hx1 _. destruct (Hnone _ _ H1 Hx1).
    + intros j x Hj Hx. destruct (Hnone _ _ Hj Hx).
Qed.

Lemma mutex_inv_exec (l : label) (s s' : system) :
  mutex_inv s -> exec1 l s = Some s' -> mutex_inv s'.
Proof.
  intros Hinv Hexec. destruct l as [d | i a].
  - destruct (exec_tick _ _ _ Hexec) as [Hl Ht].
    unfold mutex_inv, flag_of in *. now rewrite Hl, Ht.
  - destruct (exec_act_transition _ _ _ _ Hexec) as (t & t' & f' & Hi & -> & Htr).
    now apply mutex_inv_transition with t.
Qed.

Lemma mutex_inv_execs (ls : list label) (s s' : system) :
  mutex_inv s -> execs ls s = Some s' -> mutex_inv s'.
Proof.
  revert s. induction ls as [| l ls IH]; intros s Hinv; simpl.
  - now intros [= <-].
  - destruct (exec1 l s) as [s1 |] eqn:Hexec; [| discriminate].
    apply IH. now apply mutex_inv_exec with l s.
Qed.

Lemma mutex_inv_init (n : nat) (t0 : Z) : mutex_inv (init n t0).
Proof.
  assert (Hout : forall i t, sys_threads (init n t0) !! i = Some t -> holds t = false).
  { intros i t Hi. apply lookup_replicate_1 in Hi. now destruct Hi as [-> _]. }
  split.
  - intros i j ti tj Hi _ Hti _. apply Hout in Hi. congruence.
  - intros i t Hi Ht. apply Hout in Hi. congruence.
Qed.

Lemma mutex_inv_reachable (n : nat) (t0 : Z) (ls : list label) (s : system) :
  execs ls (init n t0) = Some s -> mutex_inv s.
Proof. apply mutex_inv_execs, mutex_inv_init. Qed.

Lemma execs_app (ls1 ls2 : list label) (s : system) :
  execs (ls1 ++ ls2) s =
    match execs ls1 s with
    | Some s1 => execs ls2 s1
    | None => None
    end.
Proof.
  revert s. induction ls1 as [| l ls1 IH]; intros s; simpl; [reflexivity |].
  destruct (exec1 l s); [apply IH | reflexivity].
Qed.

Lemma filter_inside_none (ts : list thread) :
  (forall (j : nat) (x : thread), ts !! j = Some x -> inside x = false) ->
  filter (fun t => inside t = true) ts = [].
Proof.
  induction ts as [| t ts IH]; intros Hnone; [reflexivity |].
  rewrite filter_cons_False.
  - apply IH. intros j x Hj. exact (Hnone (S j) x Hj).
  - rewrite (Hnone 0%nat t eq_refl). discriminate.
Qed.

(** With every holder at one index, the count of threads inside is at
    most one. *)
Lemma at_most_one (ts : list thread) :
  (forall (i j : nat) (ti tj : thread),
      ts !! i = Some ti -> ts !! j = Some tj ->
      inside ti = true -> inside tj = true -> i = j) ->
  (length (filter (fun t => inside t = true) ts) <= 1)%nat.
Proof.
  induction ts as [| t ts IH]; intros Huniq; [simpl; lia |].
  destruct (inside t) eqn:Ht.
  - rewrite filter_cons_True by assumption.
    assert (Hnil : filter (fun t => inside t = true) ts = []).
    { apply filter_inside_none. intros j x Hj.
      destruct (inside x) eqn:Hx; [| reflexivity].
      discriminate (Huniq 0%nat (S j) t x eq_refl Hj Ht Hx). }
    rewrite Hnil. simpl. lia.
  - rewrite filter_cons_False by congruence.
    apply IH. intros i j ti tj Hi Hj Hti Htj.
    assert (S i = S j) by exact (Huniq (S i) (S j) ti tj Hi Hj Hti Htj).
    lia.
Qed.

Lemma inside_holds (t : thread) : inside t = true -> holds t = true.
Proof. unfold inside, holds. now destruct (th_pc t). Qed.

(** *** What the releasing thread had in view is handed on with the lock *)

Lemma handed_on_transition (V : view) (s : system) (i : nat) (t t' : thread)
    (f' : atomic_flag) (clk : Z) :
  handed_on V s ->
  sys_threads s !! i = Some t ->
  transition t (flag_of s) t' f' ->
  handed_on V (mk_system (mk_spinlock f') clk (<[i := t']> (sys_threads s))).
Proof.
  intros [Hfree Hheld] Hi Htr. unfold handed_on, flag_of in *. simpl.
  destruct Htr as [Hh Hf Hv | Hh Hh' Hfr Hf Hv | Hh Hh' Hf Hv].
  - subst f'. split; [assumption |].
    intros j x Hj Hx. apply lookup_insert_cases in Hj.
    destruct Hj as [[-> ->] | [_ Hj]].
    + transitivity (th_view t); [| assumption].
      apply (Hheld _ _ Hi). congruence.
    + exact (Hheld _ _ Hj Hx).
  - subst f'. split; [simpl; discriminate |].
    intros j x Hj Hx. apply lookup_insert_cases in Hj.
    destruct Hj as [[-> ->] | [_ Hj]].
    + rewrite Hv. specialize (Hfree Hfr).
      transitivity (flag_view (lock_flag (sys_lock s))); [assumption |].
      apply union_subseteq_r.
    + exact (Hheld _ _ Hj Hx).
  - subst f'. simpl. split.
    + intros _. exact (Hheld _ _ Hi Hh).
    + intros j x Hj Hx. apply lookup_insert_cases in Hj.
      destruct Hj as [[-> ->] | [_ Hj]]; [congruence |].
      exact (Hheld _ _ Hj Hx).
Qed.

Lemma handed_on_exec (V : view) (l : label) (s s' : system) :
  handed_on V s -> exec1 l s = Some s' -> handed_on V s'.
Proof.
  intros Hinv Hexec. destruct l as [d | i a].
  - destruct (exec_tick _ _ _ Hexec) as [Hl Ht].
    unfold handed_on, flag_of in *. now rewrite Hl, Ht.
  - destruct (exec_act_transition _ _ _ _ Hexec) as (t & t' & f' & Hi & -> & Htr).
    now apply handed_on_transition with t.
Qed.

Lemma handed_on_execs (V : view) (ls : list label) (s s' : system) :
  handed_on V s -> execs ls s = Some s' -> handed_on V s'.
Proof.
  revert s. induction ls as [| l ls IH]; intros s Hinv; simpl.
  - now intros [= <-].
  - destruct (exec1 l s) as [s1 |] eqn:Hexec; [| discriminate].
    apply IH. now apply handed_on_exec with l s.
Qed.

(** An [unlock] hands on everything its caller has in view. *)
Lemma handed_on_unlock (s s1 : system) (a : nat) (ta : thread) :
  mutex_inv s ->
  sys_threads s !! a = Some ta ->
  exec1 (Act a Unlock) s = Some s1 ->
  handed_on (th_view ta) s1.
Proof.
  intros [Huniq _] Ha Hexec. simpl in Hexec. rewrite Ha in Hexec.
  destruct (th_pc ta) eqn:Hpc; try discriminate.
  injection Hexec as <-. unfold run_in, handed_on, flag_of. simpl.
  split; [reflexivity |].
  intros j x Hj Hx. apply lookup_insert_cases in Hj.
  destruct Hj as [[-> ->] | [Hne Hj]]; [discriminate |].
  exfalso. apply Hne. apply (Huniq _ _ _ _ Hj Ha Hx).
  unfold holds. now rewrite Hpc.
Qed.

(** *** Views only grow *)

Lemma view_grows_exec (l : label) (s s' : system) (i : nat) (t : thread) :
  exec1 l s = Some s' ->
  sys_threads s !! i = Some t ->
  exists t', sys_threads s' !! i = Some t' /\ th_view t ⊆ th_view t'.
Proof.
  intros Hexec Hi. destruct l as [d | j a].
  - destruct (exec_tick _ _ _ Hexec) as [_ Ht]. exists t. now rewrite Ht.
  - destruct (exec_act_transition _ _ _ _ Hexec) as (u & u' & f' & Hj & -> & Htr).
    simpl. destruct (decide (j = i)) as [-> | Hne].
    + exists u'. split; [exact (lookup_insert_self _ _ _ _ Hj) |].
      assert (u = t) by congruence. subst u.
      destruct Htr as [_ _ Hv | _ _ _ _ Hv | _ _ _ Hv];
        [assumption | rewrite Hv; apply union_subseteq_l | now rewrite Hv].
    + exists t. split; [| reflexivity].
      now rewrite list_lookup_insert_ne.
Qed.

Lemma view_grows_execs (ls : list label) (s s' : system) (i : nat) (t : thread) :
  execs ls s = Some s' ->
  sys_threads s !! i = Some t ->
  exists t', sys_threads s' !! i = Some t' /\ th_view t ⊆ th_view t'.
Proof.
  revert s t. induction ls as [| l ls IH]; intros s t; simpl.
  - intros [= <-] Hi. now exists t.
  - destruct (exec1 l s) as [s1 |] eqn:Hexec; [| discriminate].
    intros Hrest Hi.
    destruct (view_grows_exec _ _ _ _ _ Hexec Hi) as (t1 & Hi1 & Hv1).
    destruct (IH _ _ Hrest Hi1) as (t' & Hi' & Hv').
    exists t'. split; [assumption | now transitivity (th_view t1)].
Qed.

(** A write enters the view of the thread that makes it. *)
Lemma write_in_view (s s' : system) (a id : nat) :
  exec1 (Act a (Write id)) s = Some s' ->
  exists t', sys_threads s' !! a = Some t' /\ id ∈ th_view t'.
Proof.
  simpl. destruct (sys_threads s !! a) as [t |] eqn:Ha; [| discriminate].
  destruct (th_pc t); try discriminate; intros [= <-]; simpl;
    (eexists; split; [exact (lookup_insert_self _ _ _ _ Ha) |]);
    simpl; apply elem_of_union_r; now apply elem_of_singleton.
Qed.

(** Whatever the unlocking thread had in view is in the view of every
    thread that holds the lock afterwards. *)
Lemma unlock_then_holder (s s1 s3 : system) (a b : nat) (ta tb : thread)
    (after : list label) :
  mutex_inv s ->
  sys_threads s !! a = Some ta ->
  exec1 (Act a Unlock) s = Some s1 ->
  execs after s1 = Some s3 ->
  sys_threads s3 !! b = Some tb ->
  holds tb = true ->
  th_view ta ⊆ th_view tb.
Proof.
  intros Hinv Ha Hunlock Hafter Hb Hholds.
  pose proof (handed_on_unlock _ _ _ _ Hinv Ha Hunlock) as Hon.
  apply (handed_on_execs _ _ _ _ Hon) in Hafter.
  destruct Hafter as [_ Hheld]. exact (Hheld _ _ Hb Hholds).
Qed.

End System.

(** Every test-and-set of a run of [lock] is an acquire, and [lock] never
    clears the flag. *)
Lemma lock_run_orders (clock_period : ratio) (cls : spinlock_class) (wait_time : Z)
    (moves : list env_move) (pc : lock_pc) (cx : context) (e : event) :
  e ∈ trace_of (lock_run clock_period cls wait_time moves pc cx) ->
  match e with
  | EvTestAndSet mo _ => mo = memory_order_acquire
  | EvClear _ => False
  | _ => True
  end.
Proof.
  revert pc cx. induction moves as [| m ms IH]; intros pc cx.
  - rewrite run_nil. proj_simpl. intros Hin. now apply elem_of_nil in Hin.
  - destruct (lock_pc_eq_dec pc LockReturn) as [-> | Hpc].
    + rewrite run_returned. proj_simpl. intros Hin. now apply elem_of_nil in Hin.
    + rewrite run_cons_trace by assumption. intros Hin.
      apply elem_of_app in Hin. destruct Hin as [Hin | Hin]; [| now apply IH in Hin].
      destruct pc as [| start | start | |]; try congruence.
      * rewrite step_start in Hin. proj_simpl.
        rewrite trace_of_triple in Hin.
        apply list_elem_of_singleton in Hin. now subst e.
      * rewrite step_test in Hin. rewrite trace_of_triple in Hin.
        apply list_elem_of_singleton in Hin. now subst e.
      * rewrite step_elapsed in Hin. rewrite trace_of_triple in Hin.
        apply list_elem_of_singleton in Hin. now subst e.
      * rewrite step_yield in Hin. rewrite trace_of_triple in Hin.
        apply list_elem_of_singleton in Hin. now subst e.
Qed.

(* ===================================================================== *)
(** ** Mutual exclusion, ownership on return, and visibility *)
(* ===================================================================== *)

(** C1. However [n] threads interleave their calls of [lock], [try_lock] and
    [unlock] on one spinlock, in every state they reach at most one thread is
    inside the critical section: two threads inside are the same thread, and
    the number of threads inside is at most one. *)
Theorem mutual_exclusion
    (clock_period : ratio) (cls : spinlock_class) (n : nat) (t0 : Z)
    (ls : list label) (s : system) :
  exec_all clock_period cls ls (init n t0) = Some s ->
  (forall (i j : nat) (ti tj : thread),
      sys_threads s !! i = Some ti ->
      sys_threads s !! j = Some tj ->
      inside ti = true -> inside tj = true -> i = j)
  /\ (owners s <= 1)%nat.
Proof.
  intros Hreach.
  destruct (mutex_inv_reachable _ _ _ _ _ _ Hreach) as [Huniq _].
  assert (Hin : forall (i j : nat) (ti tj : thread),
             sys_threads s !! i = Some ti ->
             sys_threads s !! j = Some tj ->
             inside ti = true -> inside tj = true -> i = j).
  { intros i j ti tj Hi Hj Hti Htj.
    apply (Huniq i j ti tj Hi Hj); now apply inside_holds. }
  split; [exact Hin |].
  unfold owners. now apply at_most_one.
Qed.

Lemma mutual_exclusion_witness :
  exec_all nano example_class (example_schedule ++ [Act 1 LockStep]) (init 2 0)
    = Some (state_after (example_schedule ++ [Act 1 LockStep]))
  /\ (inside <$> sys_threads (state_after (example_schedule ++ [Act 1 LockStep])))
     = [false; true]
  /\ (owners (state_after (example_schedule ++ [Act 1 LockStep])) <= 1)%nat.
Proof.
  assert (Hreach : exec_all nano example_class (example_schedule ++ [Act 1 LockStep])
                     (init 2 0)
                   = Some (state_after (example_schedule ++ [Act 1 LockStep])))
    by (vm_compute; reflexivity).
  split; [exact Hreach |]. split; [vm_compute; reflexivity |].
  exact (proj2 (mutual_exclusion nano example_class 2 0
                  (example_schedule ++ [Act 1 LockStep]) _ Hreach)).
Defined.

(** C3. [lock] returns only with the lock. Whatever the wait time: a run
    of [lock] has returned exactly when a claim has succeeded in it; when it
    has, the flag is set and that successful claim is the last action of the
    call, every earlier one having left the call running; and a run that has
    not returned yet does return once it finds the flag free. In a system of
    threads, the thread whose [lock] returns finds the flag set and is the
    only thread that holds the lock. *)
Theorem lock_returns_only_with_lock
    (clock_period : ratio) (cls : spinlock_class) (wait_time : Z) :
  (forall (moves : list env_move) (cx : context),
      (result_of (lock_run clock_period cls wait_time moves LockStart cx) = LockReturn
       <-> EvTestAndSet memory_order_acquire false
             ∈ trace_of (lock_run clock_period cls wait_time moves LockStart cx))
      /\
      (result_of (lock_run clock_period cls wait_time moves LockStart cx) = LockReturn ->
       held (context_of (lock_run clock_period cls wait_time moves LockStart cx)) = true
       /\ exists tr0,
           trace_of (lock_run clock_period cls wait_time moves LockStart cx)
             = tr0 ++ [EvTestAndSet memory_order_acquire false]
           /\ EvTestAndSet memory_order_acquire false ∉ tr0)
      /\
      result_of (lock_run clock_period cls wait_time
                   (moves ++ [freed; freed; freed; freed]) LockStart cx) = LockReturn)
  /\
  (forall (n : nat) (t0 : Z) (ls : list label) (s : system) (i : nat) (t : thread),
      exec_all clock_period cls ls (init n t0) = Some s ->
      sys_threads s !! i = Some t ->
      th_pc t = Locking wait_time LockReturn ->
      exists s' t',
        exec clock_period cls (Act i LockStep) s = Some s'
        /\ sys_threads s' !! i = Some t'
        /\ th_pc t' = Inside
        /\ flag_set (flag_of s') = true
        /\ forall (j : nat) (tj : thread),
            sys_threads s' !! j = Some tj -> holds tj = true -> j = i).
Proof.
  split.
  - intros moves cx. split; [| split].
    + apply run_returns_iff. discriminate.
    + apply run_returns. discriminate.
    + apply run_can_return.
  - intros n t0 ls s i t Hreach Hi Hpc.
    assert (Hexec : exec clock_period cls (Act i LockStep) s =
                      Some (run_in s i t (ret tt) (fun _ => Inside))).
    { simpl. now rewrite Hi, Hpc. }
    pose proof (mutex_inv_reachable _ _ _ _ _ _ Hreach) as Hinv.
    destruct (mutex_inv_exec _ _ _ _ _ Hinv Hexec) as [Huniq Hflag].
    assert (Hi' : sys_threads (run_in s i t (ret tt) (fun _ => Inside)) !! i
                  = Some (mk_thread Inside (th_view t))).
    { unfold run_in. simpl. exact (lookup_insert_self _ _ _ _ Hi). }
    eexists _, _. split; [exact Hexec |]. split; [exact Hi' |].
    split; [reflexivity |]. split.
    + exact (Hflag _ _ Hi' eq_refl).
    + intros j tj Hj Hholds. exact (Huniq _ _ _ _ Hj Hi' Hholds eq_refl).
Qed.

Lemma lock_returns_only_with_lock_witness :
  (result_of (lock_run nano example_class 100 [busy; busy; busy; freed; idle; idle]
                LockStart example_context) = LockReturn
   /\ held (context_of (lock_run nano example_class 100
                          [busy; busy; busy; freed; idle; idle]
                          LockStart example_context)) = true)
  /\
  (exec_all nano example_class example_schedule (init 2 0)
     = Some (state_after example_schedule)
   /\ sys_threads (state_after example_schedule) !! 1%nat
      = Some (mk_thread (Locking 100 LockReturn) {[7%nat]})
   /\ exists s' t',
       exec nano example_class (Act 1 LockStep) (state_after example_schedule) = Some s'
       /\ sys_threads s' !! 1%nat = Some t'
       /\ th_pc t' = Inside
       /\ flag_set (flag_of s') = true).
Proof.
  split.
  - split; [vm_compute; reflexivity |].
    exact (proj1 (proj1 (proj2 (proj1
             (lock_returns_only_with_lock nano example_class 100)
             [busy; busy; busy; freed; idle; idle] example_context))
             ltac:(vm_compute; reflexivity))).
  - assert (Hreach : exec_all nano example_class example_schedule (init 2 0)
                     = Some (state_after example_schedule))
      by (vm_compute; reflexivity).
    assert (Hthread : sys_threads (state_after example_schedule) !! 1%nat
                      = Some (mk_thread (Locking 100 LockReturn) {[7%nat]}))
      by (vm_compute; reflexivity).
    split; [exact Hreach |]. split; [exact Hthread |].
    destruct (proj2 (lock_returns_only_with_lock nano example_class 100)
                2%nat 0 example_schedule _ 1%nat _ Hreach Hthread eq_refl)
      as (s' & t' & Hexec & Hi & Hpc & Hflag & _).
    exists s', t'. repeat split; assumption.
Defined.

(** C7. Every claim, in [lock] and in [try_lock], is an acquire
    test-and-set, and [unlock] is a release clear. With these orders the lock
    carries visibility: what the unlocking thread has in view at its [unlock]
    is in the view of every thread that holds the lock afterwards, so a write
    a holder made before its [unlock] is visible to the thread that claims
    the lock next. *)
Theorem acquire_release_visibility (clock_period : ratio) (cls : spinlock_class) :
  (forall cx : context,
      trace_of (try_lock cx) = [EvTestAndSet memory_order_acquire (held cx)]
      /\ trace_of (unlock cx) = [EvClear memory_order_release])
  /\
  (forall (wait_time : Z) (moves : list env_move) (cx : context)
          (mo : memory_order) (old : bool),
      EvTestAndSet mo old
        ∈ trace_of (lock_run clock_period cls wait_time moves LockStart cx) ->
      mo = memory_order_acquire)
  /\
  (forall (n : nat) (t0 : Z) (before after : list label) (s s1 s3 : system)
          (a b : nat) (ta tb : thread),
      exec_all clock_period cls before (init n t0) = Some s ->
      sys_threads s !! a = Some ta ->
      exec clock_period cls (Act a Unlock) s = Some s1 ->
      exec_all clock_period cls after s1 = Some s3 ->
      sys_threads s3 !! b = Some tb ->
      holds tb = true ->
      th_view ta ⊆ th_view tb)
  /\
  (forall (n : nat) (t0 : Z) (before between after : list label)
          (s0 s0' s s1 s3 : system) (a b id : nat) (tb : thread),
      exec_all clock_period cls before (init n t0) = Some s0 ->
      exec clock_period cls (Act a (Write id)) s0 = Some s0' ->
      exec_all clock_period cls between s0' = Some s ->
      exec clock_period cls (Act a Unlock) s = Some s1 ->
      exec_all clock_period cls after s1 = Some s3 ->
      sys_threads s3 !! b = Some tb ->
      holds tb = true ->
      id ∈ th_view tb).
Proof.
  split; [intros cx; split; reflexivity |].
  split.
  { intros wait_time moves cx mo old Hin.
    exact (lock_run_orders _ _ _ _ _ _ _ Hin). }
  split.
  - intros n t0 before after s s1 s3 a b ta tb Hs Ha Hunlock Hafter Hb Hholds.
    pose proof (mutex_inv_reachable _ _ _ _ _ _ Hs) as Hinv.
    exact (unlock_then_holder _ _ _ _ _ _ _ _ _ _ Hinv Ha Hunlock Hafter Hb Hholds).
  - intros n t0 before between after s0 s0' s s1 s3 a b id tb
           Hs0 Hwrite Hbetween Hunlock Hafter Hb Hholds.
    destruct (write_in_view _ _ _ _ _ _ Hwrite) as (t0' & Ha0 & Hid).
    destruct (view_grows_execs _ _ _ _ _ _ _ Hbetween Ha0) as (ta & Ha & Hgrow).
    assert (Hs : exec_all clock_period cls (before ++ Act a (Write id) :: between)
                   (init n t0) = Some s).
    { rewrite execs_app, Hs0. cbn [exec_all]. now rewrite Hwrite. }
    pose proof (mutex_inv_reachable _ _ _ _ _ _ Hs) as Hinv.
    pose proof (unlock_then_holder _ _ _ _ _ _ _ _ _ _ Hinv Ha Hunlock Hafter Hb Hholds)
      as Hsub.
    apply Hsub, Hgrow, Hid.
Qed.

Lemma acquire_release_visibility_witness :
  (EvTestAndSet memory_order_acquire true
     ∈ trace_of (lock_run nano example_class 100 [busy; busy] LockStart example_context)
   /\ memory_order_acquire = memory_order_acquire)
  /\
  (exec_all nano example_class example_schedule (init 2 0)
     = Some (state_after example_schedule)
   /\ sys_threads (state_after example_schedule) !! 1%nat
      = Some (mk_thread (Locking 100 LockReturn) {[7%nat]})
   /\ 7%nat ∈ th_view (mk_thread (Locking 100 LockReturn) {[7%nat]})).
Proof.
  split.
  - assert (Hin : EvTestAndSet memory_order_acquire true
                    ∈ trace_of (lock_run nano example_class 100 [busy; busy]
                                 LockStart example_context))
      by (apply list_elem_of_In; vm_compute; tauto).
    split; [exact Hin |].
    exact (proj1 (proj2 (acquire_release_visibility nano example_class))
             100 [busy; busy] example_context memory_order_acquire true Hin).
  - split; [vm_compute; reflexivity |]. split; [vm_compute; reflexivity |].
    apply (proj2 (proj2 (proj2 (acquire_release_visibility nano example_class)))
             2%nat 0 contended_start [] handover
             (state_after contended_start)
             (state_after (contended_start ++ [Act 0 (Write 7)]))
             (state_after (contended_start ++ [Act 0 (Write 7)]))
             (state_after (contended_start ++ [Act 0 (Write 7); Act 0 Unlock]))
             (state_after example_schedule)
             0%nat 1%nat 7%nat);
      vm_compute; reflexivity.
Defined.

(* ===================================================================== *)
(** ** Further properties of the class *)
(* ===================================================================== *)

Section ChronoFacts.

(** Towards a period with numerator 1 whose denominator is a multiple of the
    source's, the conversion factor is a whole number; back, it is one over
    that number. *)
Lemma cf_finer (from to : ratio) :
  ratio_ok from -> ratio_ok to ->
  num to = 1 -> (den from | den to) ->
  1 <= num from * (den to / den from)
  /\ cf_num from to = num from * (den to / den from)
  /\ cf_den from to = 1
  /\ cf_num to from = 1
  /\ cf_den to from = num from * (den to / den from).
Proof.
  intros [Hfn Hfd] [Htn Htd] Hnum [q Hq].
  assert (Hqpos : 0 < q) by nia.
  assert (Hdiv : den to / den from = q) by (rewrite Hq; apply Z.div_mul; lia).
  rewrite Hdiv. unfold cf_num, cf_den. rewrite Hnum, Hq.
  set (k := num from * q).
  assert (Hk : 0 < k) by (unfold k; nia).
  replace (num from * (q * den from)) with (k * den from) by (unfold k; ring).
  replace (den from * 1) with (den from) by ring.
  replace (1 * den from) with (den from) by ring.
  replace (q * den from * num from) with (k * den from) by (unfold k; ring).
  assert (Hg : Z.gcd (k * den from) (den from) = den from).
  { rewrite Z.gcd_comm. apply Z.divide_gcd_iff; [lia |]. now exists k. }
  assert (Hg' : Z.gcd (den from) (k * den from) = den from).
  { apply Z.divide_gcd_iff; [lia |]. now exists k. }
  rewrite Hg, Hg', Z.div_mul, Z.div_same by lia.
  repeat split; lia.
Qed.

Lemma common_period_nano_ok (p : ratio) :
  ratio_ok p ->
  ratio_ok (common_period p nano)
  /\ num (common_period p nano) = 1
  /\ (den p | den (common_period p nano))
  /\ (den nano | den (common_period p nano)).
Proof.
  intros [Hn Hd]. unfold common_period, ratio_ok. simpl.
  rewrite Z.gcd_1_r.
  assert (Hl : 0 <= Z.lcm (den p) 1000000000) by apply Z.lcm_nonneg.
  assert (Hl0 : Z.lcm (den p) 1000000000 <> 0).
  { intros H0. apply Z.lcm_eq_0 in H0. lia. }
  repeat split; try lia.
  - apply Z.divide_lcm_l.
  - apply Z.divide_lcm_r.
Qed.

End ChronoFacts.

(** X1. What an accepted instantiation gives. For a wait duration type with
    a positive period whose common period with nanoseconds is representable,
    and a positive wait count, [duration_type] has a positive period no
    coarser than a nanosecond, and the default wait time is the count times a
    whole factor of at least one. When that product fits in 64 bits the
    default is that product: at least the count, and converted back to the
    wait period it is the count again. When it does not fit, the default is
    ill-formed, and the instance can only be locked with an explicit wait
    time. *)
Theorem instantiate_default_exact (wait_period : ratio) (wait_count : Z) :
  ratio_ok wait_period ->
  den (common_period wait_period nano) <= int64_max ->
  0 < wait_count ->
  exists cls,
    instantiate wait_period wait_count = Compiled cls
    /\ ratio_ok (duration_type cls)
    /\ num (duration_type cls) = 1
    /\ (den nano | den (duration_type cls))
    /\ 1 <= cf_num wait_period (duration_type cls)
    /\ (wait_count * cf_num wait_period (duration_type cls) <= int64_max ->
        default_wait_time cls
          = Compiled (wait_count * cf_num wait_period (duration_type cls))
        /\ wait_count <= wait_count * cf_num wait_period (duration_type cls)
        /\ duration_cast (duration_type cls) wait_period
             (wait_count * cf_num wait_period (duration_type cls)) = wait_count
        /\ wait_arg cls None
           = Some (wait_count * cf_num wait_period (duration_type cls)))
    /\ (int64_max < wait_count * cf_num wait_period (duration_type cls) ->
        default_wait_time cls = IllFormed "overflow in constant expression"
        /\ wait_arg cls None = None).
Proof.
  intros Hp Hfit Hwc.
  destruct (common_period_nano_ok wait_period Hp) as (Hok & Hnum & Hdiv & Hnano).
  destruct (cf_finer wait_period (common_period wait_period nano)
              Hp Hok Hnum Hdiv) as (Hk & Hcn & Hcd & Hbn & Hbd).
  set (dt := common_period wait_period nano) in *.
  set (k := num wait_period * (den dt / den wait_period)) in *.
  exists (mk_class dt (constexpr_duration_cast wait_period dt wait_count)).
  split.
  { unfold instantiate, static_assert, ratio_okb.
    destruct Hp as [Hpn Hpd].
    destruct (Z.ltb_spec 0 (num wait_period)); [| lia].
    destruct (Z.ltb_spec 0 (den wait_period)); [| lia]. cbn [andb].
    destruct (Z.ltb_spec 0 wait_count); [| lia]. cbv zeta. fold dt.
    apply Z.leb_le in Hfit. now rewrite Hfit. }
  cbn [duration_type default_wait_time]. rewrite Hcn.
  split; [assumption |]. split; [assumption |]. split; [assumption |].
  split; [assumption |].
  unfold wait_arg. cbn [default_wait_time].
  unfold constexpr_duration_cast. rewrite Hcn, Hcd, Z.quot_1_r.
  split.
  - intros Hsmall.
    assert (Hin : in_int64 (wait_count * k) = true).
    { unfold in_int64, int64_min. apply andb_true_intro.
      split; [apply Z.leb_le; nia | now apply Z.leb_le]. }
    rewrite Hin. split; [reflexivity |]. split; [nia |]. split; [| reflexivity].
    unfold duration_cast. rewrite Hbn, Hbd, Z.mul_1_r.
    rewrite wrap64_small by (unfold int64_min; nia).
    apply Z.quot_mul. lia.
  - intros Hbig.
    assert (Hout : in_int64 (wait_count * k) = false).
    { unfold in_int64. apply andb_false_intro2. apply Z.leb_gt. assumption. }
    rewrite Hout. split; reflexivity.
Qed.

Lemma instantiate_default_exact_witness :
  (exists cls,
      instantiate milli 5 = Compiled cls
      /\ default_wait_time cls = Compiled 5000000
      /\ duration_cast (duration_type cls) milli 5000000 = 5)
  /\
  (exists cls,
      instantiate hours 2562048 = Compiled cls
      /\ default_wait_time cls = IllFormed "overflow in constant expression"
      /\ wait_arg cls None = None).
Proof.
  split.
  - destruct (instantiate_default_exact milli 5)
      as (cls & Hi & _ & _ & _ & _ & Hsmall & _);
      [split; reflexivity | vm_compute; discriminate | lia |].
    exists cls. split; [exact Hi |].
    assert (Hc : instantiate milli 5 = Compiled (mk_class nano (Compiled 5000000)))
      by (vm_compute; reflexivity).
    rewrite Hc in Hi. injection Hi as <-.
    destruct (Hsmall ltac:(vm_compute; discriminate)) as (Hd & _ & Hback & _).
    split; [exact Hd | exact Hback].
  - destruct (instantiate_default_exact hours 2562048)
      as (cls & Hi & _ & _ & _ & _ & _ & Hbig);
      [split; reflexivity | vm_compute; discriminate | lia |].
    exists cls. split; [exact Hi |].
    assert (Hc : instantiate hours 2562048
                 = Compiled (mk_class nano (IllFormed "overflow in constant expression")))
      by (vm_compute; reflexivity).
    rewrite Hc in Hi. injection Hi as <-.
    exact (Hbig ltac:(vm_compute; reflexivity)).
Defined.

Section LockAlone.

Variable clock_period : ratio.
Variable cls : spinlock_class.
Variable wait_time : Z.

Local Abbreviation step := (lock_step clock_period cls wait_time).
Local Abbreviation run := (lock_run clock_period cls wait_time).

Implicit Types (pc : lock_pc) (cx : context) (m : env_move) (ms : list env_move).

(** [lock] never clears the flag: a set flag stays set under any action. *)
Lemma step_keeps_held pc cx :
  held cx = true ->
  held (context_of (step pc cx)) = true
  /\ (pc <> LockReturn -> result_of (step pc cx) <> LockReturn).
Proof.
  intros Hheld. destruct pc as [| start | start | |].
  - rewrite step_start. proj_simpl. now split.
  - rewrite step_test, Hheld. proj_simpl. now split.
  - rewrite step_elapsed. proj_simpl. split; [assumption |].
    now destruct (_ >=? _).
  - rewrite step_yield. proj_simpl. now split.
  - split; [assumption | congruence].
Qed.

Lemma env_keeps_held m cx :
  em_flag m = None -> held (env_apply m cx) = held cx.
Proof. intros Hm. unfold held, env_apply. now rewrite Hm. Qed.

Lemma run_on_held ms pc cx :
  Forall (fun m => em_flag m = None) ms ->
  held cx = true ->
  pc <> LockReturn ->
  result_of (run ms pc cx) <> LockReturn
  /\ held (context_of (run ms pc cx)) = true.
Proof.
  intros Hms. revert pc cx.
  induction Hms as [| m ms Hm _ IH]; intros pc cx Hheld Hpc.
  - rewrite run_nil. proj_simpl. now split.
  - rewrite run_cons_result, run_cons_context by assumption.
    assert (Hheld' : held (env_apply m cx) = true) by now rewrite env_keeps_held.
    destruct (step_keeps_held pc _ Hheld') as [Hh Hgo].
    apply IH; [assumption | now apply Hgo].
Qed.

(** *** No yield while the wait time has not passed *)

Lemma run_within_no_yield (T : Z) ms pc cx :
  ratio_ok clock_period -> ratio_ok (duration_type cls) ->
  exact_cast clock_period (duration_type cls) T < wait_time ->
  within T ms pc cx ->
  EvYield ∉ trace_of (run ms pc cx).
Proof.
  intros Hcp Hdt HT. revert pc cx.
  induction ms as [| m ms IH]; intros pc cx Hin.
  - rewrite run_nil. proj_simpl. apply not_elem_of_nil.
  - destruct (lock_pc_eq_dec pc LockReturn) as [-> | Hpc].
    { rewrite run_returned. proj_simpl. apply not_elem_of_nil. }
    rewrite run_cons_trace by assumption.
    pose proof (total_ticks_nonneg ms) as Hms.
    pose proof (env_apply_clock m cx) as Hclock.
    apply not_elem_of_app.
    destruct pc as [| start | start | |]; try congruence;
      cbn [within bounded] in Hin; try rewrite total_ticks_cons in Hin.
    + rewrite step_start. proj_simpl. split.
      * intros H. now apply list_elem_of_singleton in H.
      * apply IH. cbn [within bounded]. lia.
    + rewrite step_test. proj_simpl. split.
      * intros H. now apply list_elem_of_singleton in H.
      * apply IH. destruct (held (env_apply m cx)); cbn [within bounded]; [| exact I].
        change (cx_clock (context_of (try_lock (env_apply m cx))))
          with (cx_clock (env_apply m cx)). lia.
    + rewrite step_elapsed. proj_simpl.
      assert (Hlt : (elapsed_since clock_period cls start (cx_clock (env_apply m cx))
                       >=? wait_time) = false).
      { destruct (Z.geb_spec (elapsed_since clock_period cls start
                                (cx_clock (env_apply m cx)))
                    wait_time) as [Hge | Hlt]; [| reflexivity].
        unfold elapsed_since in Hge.
        assert (duration_cast clock_period (duration_type cls)
                  (wrap64 (cx_clock (env_apply m cx) - start))
                <= exact_cast clock_period (duration_type cls)
                     (cx_clock (env_apply m cx) - start))
          by (apply duration_cast_le_exact; try assumption; lia).
        assert (exact_cast clock_period (duration_type cls)
                  (cx_clock (env_apply m cx) - start)
                <= exact_cast clock_period (duration_type cls) T)
          by (apply exact_cast_mono; try assumption; lia).
        lia. }
      rewrite Hlt. split.
      * intros H. now apply list_elem_of_singleton in H.
      * apply IH. cbn [within bounded]. lia.
    + destruct Hin.
Qed.

(** *** A yield needs a failed claim *)

Lemma count_events_app (p : event -> bool) (tr1 tr2 : list event) :
  count_events p (tr1 ++ tr2) = (count_events p tr1 + count_events p tr2)%nat.
Proof. induction tr1 as [| e tr1 IH]; simpl; [reflexivity | rewrite IH; lia]. Qed.

Lemma run_yields_bounded ms pc cx :
  (count_events is_yield (trace_of (run ms pc cx))
   <= count_events is_failed_claim (trace_of (run ms pc cx)) + yield_credit pc)%nat.
Proof.
  revert pc cx. induction ms as [| m ms IH]; intros pc cx.
  - rewrite run_nil. proj_simpl. simpl. lia.
  - destruct (lock_pc_eq_dec pc LockReturn) as [-> | Hpc].
    { rewrite run_returned. proj_simpl. simpl. lia. }
    rewrite run_cons_trace by assumption. rewrite !count_events_app.
    destruct pc as [| start | start | |]; try congruence.
    + rewrite step_start. proj_simpl.
      specialize (IH (LockTest (cx_clock (env_apply m cx))) (env_apply m cx)).
      simpl in *. lia.
    + rewrite step_test. proj_simpl.
      destruct (held (env_apply m cx)).
      * specialize (IH (LockElapsed start) (context_of (try_lock (env_apply m cx)))).
        simpl in *. lia.
      * rewrite run_returned. proj_simpl. simpl. lia.
    + rewrite step_elapsed. proj_simpl.
      destruct (_ >=? _).
      * specialize (IH LockYield (env_apply m cx)). simpl in *. lia.
      * specialize (IH (LockTest start) (env_apply m cx)). simpl in *. lia.
    + rewrite step_yield. proj_simpl.
      specialize (IH LockStart (env_apply m cx)). simpl in *. lia.
Qed.

End LockAlone.

(** X2. Calling [lock] on a lock that is held and that nobody releases never
    returns, whatever the wait time and however long the clock runs: the call
    stays in its loops, the flag stays set, and no claim of it succeeds. This
    is what happens to a thread that calls [lock] on a spinlock it owns. *)
Theorem lock_on_held_lock_never_returns
    (clock_period : ratio) (cls : spinlock_class) (wait_time : Z)
    (ms : list env_move) (cx : context) :
  Forall (fun m => em_flag m = None) ms ->
  held cx = true ->
  result_of (lock_run clock_period cls wait_time ms LockStart cx) <> LockReturn
  /\ held (context_of (lock_run clock_period cls wait_time ms LockStart cx)) = true
  /\ EvTestAndSet memory_order_acquire false
       ∉ trace_of (lock_run clock_period cls wait_time ms LockStart cx).
Proof.
  intros Hms Hheld.
  destruct (run_on_held clock_period cls wait_time ms LockStart cx Hms Hheld)
    as [Hres Hh]; [discriminate |].
  split; [assumption |]. split; [assumption |].
  intros Hin. apply Hres.
  apply run_returns_iff; [discriminate | assumption].
Qed.

Lemma lock_on_held_lock_never_returns_witness :
  result_of (lock_run nano example_class 100
               [idle; mk_env_move None 500; idle; idle; idle] LockStart held_context)
    <> LockReturn
  /\ held (context_of (lock_run nano example_class 100
                         [idle; mk_env_move None 500; idle; idle; idle]
                         LockStart held_context)) = true
  /\ EvTestAndSet memory_order_acquire false
       ∉ trace_of (lock_run nano example_class 100
                     [idle; mk_env_move None 500; idle; idle; idle]
                     LockStart held_context).
Proof.
  apply (lock_on_held_lock_never_returns nano example_class 100
           [idle; mk_env_move None 500; idle; idle; idle] held_context).
  - repeat constructor.
  - reflexivity.
Defined.

(** X3. [lock] does not yield before the wait time has passed: as long as
    the steady clock has advanced, since the call began, by fewer ticks than
    make up [wait_time], the call has only read the clock and attempted
    claims. *)
Theorem lock_spins_before_yield
    (clock_period : ratio) (cls : spinlock_class) (wait_time : Z)
    (ms : list env_move) (cx : context) :
  ratio_ok clock_period -> ratio_ok (duration_type cls) ->
  exact_cast clock_period (duration_type cls) (total_ticks ms) < wait_time ->
  EvYield ∉ trace_of (lock_run clock_period cls wait_time ms LockStart cx).
Proof.
  intros Hcp Hdt HT.
  apply (run_within_no_yield clock_period cls wait_time (total_ticks ms));
    try assumption.
  simpl. lia.
Qed.

Lemma lock_spins_before_yield_witness :
  EvYield ∉ trace_of (lock_run nano example_class 100
                        [mk_env_move (Some (mk_flag true ∅)) 30;
                         mk_env_move None 30; mk_env_move None 30;
                         mk_env_move None 5; mk_env_move None 4]
                        LockStart example_context).
Proof.
  apply (lock_spins_before_yield nano example_class 100).
  - split; reflexivity.
  - split; reflexivity.
  - vm_compute. reflexivity.
Defined.

(** X4. [lock] yields at most once per failed claim: in the trace of any run
    of a call, finished or not, the yields are no more than the claims that
    failed. *)
Theorem lock_yields_at_most_failed_claims
    (clock_period : ratio) (cls : spinlock_class) (wait_time : Z)
    (ms : list env_move) (cx : context) :
  (count_events is_yield
     (trace_of (lock_run clock_period cls wait_time ms LockStart cx))
   <= count_events is_failed_claim
        (trace_of (lock_run clock_period cls wait_time ms LockStart cx)))%nat.
Proof.
  pose proof (run_yields_bounded clock_period cls wait_time ms LockStart cx) as H.
  simpl in H. lia.
Qed.

Section SystemMore.

Variable clock_period : ratio.
Variable cls : spinlock_class.

Local Abbreviation exec1 := (exec clock_period cls).
Local Abbreviation execs := (exec_all clock_period cls).

(** *** A set flag has a holder *)

Lemma owned_transition (s : system) (i : nat) (t t' : thread) (f' : atomic_flag) :
  (flag_set (flag_of s) = true ->
   exists j x, sys_threads s !! j = Some x /\ holds x = true) ->
  sys_threads s !! i = Some t ->
  transition t (flag_of s) t' f' ->
  flag_set f' = true ->
  exists j x, <[i := t']> (sys_threads s) !! j = Some x /\ holds x = true.
Proof.
  intros Hown Hi Htr Hset.
  destruct Htr as [Hh Hf Hv | Hh Hh' Hfr Hf Hv | Hh Hh' Hf Hv].
  - subst f'. destruct (Hown Hset) as (j & x & Hj & Hx).
    destruct (decide (j = i)) as [-> | Hne].
    + exists i, t'. split; [exact (lookup_insert_self _ _ _ _ Hi) |].
      assert (x = t) by congruence. congruence.
    + exists j, x. split; [| assumption].
      rewrite list_lookup_insert_ne by congruence. assumption.
  - exists i, t'. split; [exact (lookup_insert_self _ _ _ _ Hi) | assumption].
  - subst f'. discriminate.
Qed.

Lemma owned_execs (ls : list label) (s s' : system) :
  (flag_set (flag_of s) = true ->
   exists j x, sys_threads s !! j = Some x /\ holds x = true) ->
  execs ls s = Some s' ->
  flag_set (flag_of s') = true ->
  exists j x, sys_threads s' !! j = Some x /\ holds x = true.
Proof.
  revert s. induction ls as [| l ls IH]; intros s Hown; simpl.
  - now intros [= <-].
  - destruct (exec1 l s) as [s1 |] eqn:Hexec; [| discriminate].
    apply IH. destruct l as [d | i a].
    + destruct (exec_tick _ _ _ _ _ Hexec) as [Hl Ht].
      unfold flag_of in *. now rewrite Hl, Ht.
    + destruct (exec_act_transition _ _ _ _ _ _ Hexec)
        as (t & t' & f' & Hi & -> & Htr).
      unfold flag_of at 1. simpl.
      now apply owned_transition with t.
Qed.

(** *** A call of [lock] that runs undisturbed takes a free lock *)

Lemma run_in_eq {A} (s : system) (i : nat) (t : thread) (m : M A)
    (k : A -> thread_pc) :
  run_in s i t m k =
    mk_system
      (cx_lock (context_of (m (mk_context (th_view t) (sys_lock s) (sys_clock s)))))
      (cx_clock (context_of (m (mk_context (th_view t) (sys_lock s) (sys_clock s)))))
      (<[i := mk_thread
                (k (result_of (m (mk_context (th_view t) (sys_lock s) (sys_clock s)))))
                (cx_view (context_of
                            (m (mk_context (th_view t) (sys_lock s) (sys_clock s)))))]>
         (sys_threads s)).
Proof.
  unfold run_in, result_of, context_of.
  now destruct (m (mk_context (th_view t) (sys_lock s) (sys_clock s))) as [[? ?] ?].
Qed.

(** One action of a running [lock], seen from the system. *)
Lemma lock_step_effect (s : system) (i : nat) (t : thread) (w : Z) (pc : lock_pc) :
  sys_threads s !! i = Some t ->
  th_pc t = Locking w pc ->
  pc <> LockReturn ->
  exists s1 t1,
    exec1 (Act i LockStep) s = Some s1
    /\ sys_threads s1 !! i = Some t1
    /\ th_pc t1 =
         Locking w (result_of (lock_step clock_period cls w pc
                                 (mk_context (th_view t) (sys_lock s) (sys_clock s))))
    /\ sys_lock s1 =
         cx_lock (context_of (lock_step clock_period cls w pc
                                (mk_context (th_view t) (sys_lock s) (sys_clock s)))).
Proof.
  intros Hi Hpc Hne.
  assert (Hexec : exec1 (Act i LockStep) s =
                    Some (run_in s i t (lock_step clock_period cls w pc) (Locking w))).
  { simpl. rewrite Hi, Hpc. destruct pc; congruence. }
  eexists _, _. split; [exact Hexec |].
  rewrite run_in_eq. simpl.
  split; [exact (lookup_insert_self _ _ _ _ Hi) |]. split; reflexivity.
Qed.

Lemma lock_return_effect (s : system) (i : nat) (t : thread) (w : Z) :
  sys_threads s !! i = Some t ->
  th_pc t = Locking w LockReturn ->
  exists s1 t1,
    exec1 (Act i LockStep) s = Some s1
    /\ sys_threads s1 !! i = Some t1
    /\ th_pc t1 = Inside
    /\ sys_lock s1 = sys_lock s.
Proof.
  intros Hi Hpc.
  assert (Hexec : exec1 (Act i LockStep) s =
                    Some (run_in s i t (ret tt) (fun _ => Inside))).
  { simpl. now rewrite Hi, Hpc. }
  eexists _, _. split; [exact Hexec |].
  rewrite run_in_eq. simpl.
  split; [exact (lookup_insert_self _ _ _ _ Hi) |]. split; reflexivity.
Qed.

Lemma steps_cons (k : nat) (i : nat) (s s1 : system) :
  exec1 (Act i LockStep) s = Some s1 ->
  execs (replicate (S k) (Act i LockStep)) s = execs (replicate k (Act i LockStep)) s1.
Proof. intros H. cbn [replicate exec_all]. now rewrite H. Qed.

Lemma progress_test (s : system) (i : nat) (t : thread) (w start : Z) :
  sys_threads s !! i = Some t ->
  th_pc t = Locking w (LockTest start) ->
  flag_set (flag_of s) = false ->
  exists s', execs (replicate 2 (Act i LockStep)) s = Some s' /\ taken i s'.
Proof.
  intros Hi Hpc Hfree.
  destruct (lock_step_effect s i t w _ Hi Hpc ltac:(discriminate))
    as (s1 & t1 & Hexec1 & Hi1 & Hpc1 & Hlock1).
  rewrite step_test in Hpc1, Hlock1. rewrite result_of_triple in Hpc1.
  rewrite context_of_triple in Hlock1.
  assert (Hh : held (mk_context (th_view t) (sys_lock s) (sys_clock s)) = false)
    by exact Hfree.
  rewrite Hh in Hpc1.
  destruct (lock_return_effect s1 i t1 w Hi1 Hpc1)
    as (s2 & t2 & Hexec2 & Hi2 & Hpc2 & Hlock2).
  exists s2. split.
  - rewrite (steps_cons _ _ _ _ Hexec1), (steps_cons _ _ _ _ Hexec2). reflexivity.
  - exists t2. split; [assumption |]. split; [assumption |].
    unfold flag_of. rewrite Hlock2, Hlock1. reflexivity.
Qed.

Lemma progress_start (s : system) (i : nat) (t : thread) (w : Z) :
  sys_threads s !! i = Some t ->
  th_pc t = Locking w LockStart ->
  flag_set (flag_of s) = false ->
  exists s', execs (replicate 3 (Act i LockStep)) s = Some s' /\ taken i s'.
Proof.
  intros Hi Hpc Hfree.
  destruct (lock_step_effect s i t w _ Hi Hpc ltac:(discriminate))
    as (s1 & t1 & Hexec1 & Hi1 & Hpc1 & Hlock1).
  rewrite step_start in Hpc1, Hlock1. rewrite result_of_triple in Hpc1.
  rewrite context_of_triple in Hlock1. simpl in Hpc1, Hlock1.
  assert (Hfree1 : flag_set (flag_of s1) = false)
    by (unfold flag_of; now rewrite Hlock1).
  destruct (progress_test s1 i t1 w _ Hi1 Hpc1 Hfree1) as (s' & Hrest & Htaken).
  exists s'. split; [| assumption].
  now rewrite (steps_cons _ _ _ _ Hexec1).
Qed.

Lemma progress_yield (s : system) (i : nat) (t : thread) (w : Z) :
  sys_threads s !! i = Some t ->
  th_pc t = Locking w LockYield ->
  flag_set (flag_of s) = false ->
  exists s', execs (replicate 4 (Act i LockStep)) s = Some s' /\ taken i s'.
Proof.
  intros Hi Hpc Hfree.
  destruct (lock_step_effect s i t w _ Hi Hpc ltac:(discriminate))
    as (s1 & t1 & Hexec1 & Hi1 & Hpc1 & Hlock1).
  rewrite step_yield in Hpc1, Hlock1. rewrite result_of_triple in Hpc1.
  rewrite context_of_triple in Hlock1. simpl in Hlock1.
  assert (Hfree1 : flag_set (flag_of s1) = false)
    by (unfold flag_of; now rewrite Hlock1).
  destruct (progress_start s1 i t1 w Hi1 Hpc1 Hfree1) as (s' & Hrest & Htaken).
  exists s'. split; [| assumption].
  now rewrite (steps_cons _ _ _ _ Hexec1).
Qed.

Lemma progress_elapsed (s : system) (i : nat) (t : thread) (w start : Z) :
  sys_threads s !! i = Some t ->
  th_pc t = Locking w (LockElapsed start) ->
  flag_set (flag_of s) = false ->
  exists k s', (k <= 5)%nat
               /\ execs (replicate k (Act i LockStep)) s = Some s' /\ taken i s'.
Proof.
  intros Hi Hpc Hfree.
  destruct (lock_step_effect s i t w _ Hi Hpc ltac:(discriminate))
    as (s1 & t1 & Hexec1 & Hi1 & Hpc1 & Hlock1).
  rewrite step_elapsed in Hpc1, Hlock1. rewrite result_of_triple in Hpc1.
  rewrite context_of_triple in Hlock1. simpl in Hlock1.
  assert (Hfree1 : flag_set (flag_of s1) = false)
    by (unfold flag_of; now rewrite Hlock1).
  destruct (_ >=? _) in Hpc1.
  - destruct (progress_yield s1 i t1 w Hi1 Hpc1 Hfree1) as (s' & Hrest & Htaken).
    exists 5%nat, s'. split; [lia |]. split; [| assumption].
    now rewrite (steps_cons _ _ _ _ Hexec1).
  - destruct (progress_test s1 i t1 w _ Hi1 Hpc1 Hfree1) as (s' & Hrest & Htaken).
    exists 3%nat, s'. split; [lia |]. split; [| assumption].
    now rewrite (steps_cons _ _ _ _ Hexec1).
Qed.

End SystemMore.

Section Unfair.

Variable clock_period : ratio.
Variable cls : spinlock_class.

Lemma duration_cast_zero (from to : ratio) : duration_cast from to 0 = 0.
Proof. reflexivity. Qed.

(** One round: thread 0 takes the lock, thread 1's claim fails, thread 0
    releases, thread 1 finds no time elapsed and goes back to claiming. *)
Lemma starve_round_waiting (w t0 : Z) (v0 v1 fv : view) :
  0 < w ->
  exec_all clock_period cls starve_round (waiting w t0 v0 v1 fv)
    = Some (waiting w t0 (v0 ∪ fv) (v1 ∪ fv) (v0 ∪ fv)).
Proof.
  intros Hw. unfold starve_round, waiting.
  cbn -[duration_cast Z.geb Z.sub].
  rewrite Z.sub_diag, duration_cast_zero.
  destruct (Z.geb_spec 0 w); [lia | reflexivity].
Qed.

Lemma starve_rounds_waiting (w t0 : Z) (k : nat) (v0 v1 fv : view) :
  0 < w ->
  exists v0' v1' fv',
    exec_all clock_period cls (starve_rounds k) (waiting w t0 v0 v1 fv)
      = Some (waiting w t0 v0' v1' fv').
Proof.
  intros Hw. revert v0 v1 fv. induction k as [| k IH]; intros v0 v1 fv.
  - now exists v0, v1, fv.
  - cbn [starve_rounds]. rewrite execs_app, (starve_round_waiting _ _ _ _ _ Hw).
    apply IH.
Qed.

End Unfair.

(** X5. The flag is set exactly while one thread holds the lock: in every
    state the threads reach, a set flag has a thread that claimed it and has
    not yet unlocked, that thread is the only one, and a thread that holds
    the lock finds the flag set. A failed claim or a finished critical
    section never leaves the flag set with nobody holding it. *)
Theorem flag_set_iff_held
    (clock_period : ratio) (cls : spinlock_class) (n : nat) (t0 : Z)
    (ls : list label) (s : system) :
  exec_all clock_period cls ls (init n t0) = Some s ->
  flag_set (flag_of s) = true
  <-> exists i t,
        sys_threads s !! i = Some t /\ holds t = true
        /\ forall (j : nat) (tj : thread),
             sys_threads s !! j = Some tj -> holds tj = true -> j = i.
Proof.
  intros Hreach.
  destruct (mutex_inv_reachable _ _ _ _ _ _ Hreach) as [Huniq Hflag].
  split.
  - intros Hset.
    destruct (owned_execs clock_period cls ls (init n t0) s
                ltac:(simpl; discriminate) Hreach Hset) as (i & t & Hi & Ht).
    exists i, t. split; [assumption |]. split; [assumption |].
    intros j tj Hj Htj. exact (Huniq _ _ _ _ Hj Hi Htj Ht).
  - intros (i & t & Hi & Ht & _). exact (Hflag _ _ Hi Ht).
Qed.

Lemma flag_set_iff_held_witness :
  exec_all nano example_class example_schedule (init 2 0)
    = Some (state_after example_schedule)
  /\ (flag_set (flag_of (state_after example_schedule)) = true
      <-> exists i t,
            sys_threads (state_after example_schedule) !! i = Some t
            /\ holds t = true
            /\ forall (j : nat) (tj : thread),
                 sys_threads (state_after example_schedule) !! j = Some tj ->
                 holds tj = true -> j = i).
Proof.
  assert (Hreach : exec_all nano example_class example_schedule (init 2 0)
                   = Some (state_after example_schedule))
    by (vm_compute; reflexivity).
  split; [exact Hreach |].
  exact (flag_set_iff_held nano example_class 2 0 example_schedule _ Hreach).
Defined.

(** X6. A call of [lock] that runs undisturbed takes a free lock: from any
    state in which the flag is clear and a thread is anywhere inside [lock],
    at most five of that thread's own actions, with no other thread acting in
    between, bring it inside the critical section with the flag set. *)
Theorem lock_takes_free_lock
    (clock_period : ratio) (cls : spinlock_class)
    (s : system) (i : nat) (t : thread) (w : Z) (pc : lock_pc) :
  sys_threads s !! i = Some t ->
  th_pc t = Locking w pc ->
  pc <> LockReturn ->
  flag_set (flag_of s) = false ->
  exists k s',
    (k <= 5)%nat
    /\ exec_all clock_period cls (replicate k (Act i LockStep)) s = Some s'
    /\ taken i s'.
Proof.
  intros Hi Hpc Hne Hfree.
  destruct pc as [| start | start | |]; try congruence.
  - destruct (progress_start clock_period cls s i t w Hi Hpc Hfree) as (s' & H & Ht).
    exists 3%nat, s'. split; [lia | now split].
  - destruct (progress_test clock_period cls s i t w start Hi Hpc Hfree)
      as (s' & H & Ht).
    exists 2%nat, s'. split; [lia | now split].
  - exact (progress_elapsed clock_period cls s i t w start Hi Hpc Hfree).
  - destruct (progress_yield clock_period cls s i t w Hi Hpc Hfree) as (s' & H & Ht).
    exists 4%nat, s'. split; [lia | now split].
Qed.

Lemma lock_takes_free_lock_witness :
  exists k s',
    (k <= 5)%nat
    /\ exec_all nano example_class (replicate k (Act 1 LockStep))
         (waiting 100 0 ∅ ∅ ∅) = Some s'
    /\ taken 1 s'.
Proof.
  apply (lock_takes_free_lock nano example_class (waiting 100 0 ∅ ∅ ∅) 1%nat
           (mk_thread (Locking 100 (LockTest 0)) ∅) 100 (LockTest 0));
    [reflexivity | reflexivity | discriminate | reflexivity].
Defined.

(** X7. The lock is not fair. For every positive wait time and every [k]
    there is a schedule in which one thread takes and releases the lock [k]
    times while another, inside [lock] all along, fails each of its claims:
    at the end the lock is free and the waiting thread is still where it was,
    about to attempt a claim in its first phase. *)
Theorem lock_can_starve
    (clock_period : ratio) (cls : spinlock_class) (w t0 : Z) (k : nat) :
  0 < w ->
  exists s t1,
    exec_all clock_period cls (starve w k) (init 2 t0) = Some s
    /\ sys_threads s !! 1%nat = Some t1
    /\ th_pc t1 = Locking w (LockTest t0)
    /\ flag_set (flag_of s) = false.
Proof.
  intros Hw.
  destruct (starve_rounds_waiting clock_period cls w t0 k ∅ ∅ ∅ Hw)
    as (v0 & v1 & fv & Hrounds).
  exists (waiting w t0 v0 v1 fv), (mk_thread (Locking w (LockTest t0)) v1).
  split.
  - unfold starve. rewrite execs_app.
    change (exec_all clock_period cls
              [Act 1 (CallLock (Some w)); Act 1 LockStep] (init 2 t0))
      with (Some (waiting w t0 ∅ ∅ ∅)).
    exact Hrounds.
  - split; [reflexivity |]. split; reflexivity.
Qed.

Lemma lock_can_starve_witness :
  exists s t1,
    exec_all nano example_class (starve 100 3) (init 2 0) = Some s
    /\ sys_threads s !! 1%nat = Some t1
    /\ th_pc t1 = Locking 100 (LockTest 0)
    /\ flag_set (flag_of s) = false.
Proof.
  apply (lock_can_starve nano example_class 100 0 3). lia.
Defined.

(** X8. On a free lock that nobody else touches, [lock] does to the lock and
    to the caller's view exactly what a successful [try_lock] does; only the
    clock reading is added, and the wait time plays no part. *)
Theorem lock_uncontended_is_try_lock
    (clock_period : ratio) (cls : spinlock_class) (wait_time : Z)
    (m1 m2 : env_move) (ms : list env_move) (cx : context) :
  held cx = false -> em_flag m1 = None -> em_flag m2 = None ->
  result_of (try_lock cx) = true
  /\ cx_lock (context_of (lock_run clock_period cls wait_time
                            (m1 :: m2 :: ms) LockStart cx))
     = cx_lock (context_of (try_lock cx))
  /\ cx_view (context_of (lock_run clock_period cls wait_time
                            (m1 :: m2 :: ms) LockStart cx))
     = cx_view (context_of (try_lock cx)).
Proof.
  intros Hfree Hm1 Hm2.
  assert (Hfree2 : held (env_apply m2 (env_apply m1 cx)) = false).
  { unfold held, env_apply in *. now rewrite Hm1, Hm2. }
  rewrite run_cons_context by discriminate. rewrite step_start. proj_simpl.
  rewrite run_cons_context by discriminate. rewrite step_test, Hfree2. proj_simpl.
  rewrite run_returned. proj_simpl.
  rewrite !try_lock_unfold. proj_simpl. rewrite Hfree.
  unfold env_apply. rewrite Hm1, Hm2. simpl. repeat split.
Qed.

Lemma lock_uncontended_is_try_lock_witness :
  result_of (try_lock example_context) = true
  /\ cx_lock (context_of (lock_run nano example_class 100
                            [idle; mk_env_move None 7; idle] LockStart example_context))
     = cx_lock (context_of (try_lock example_context))
  /\ cx_view (context_of (lock_run nano example_class 100
                            [idle; mk_env_move None 7; idle] LockStart example_context))
     = cx_view (context_of (try_lock example_context)).
Proof.
  apply (lock_uncontended_is_try_lock nano example_class 100
           idle (mk_env_move None 7) [idle] example_context); reflexivity.
Defined.

(* ===================================================================== *)
(** ** Beyond the range of the tick count *)
(* ===================================================================== *)

(** Ten seconds of a nanosecond clock are 10^19 attoseconds, which 64 bits do
    not hold: the conversion of line 145 gives a negative count. *)
Lemma elapsed_overflows :
  elapsed_since nano atto_class 0 10000000000 = - 8446744073709551616.
Proof. vm_compute. reflexivity. Qed.


